(** * Art timeline layout engine: axis mapping, overlap resolution, visible range

    A shallow embedding of [src/utils/timeline.ts] (the utility section of
    [App.tsx]), of [updateVisibleRange], the half-century markers and the
    pinch zoom in [components/Timeline.tsx], of [formatRange] in
    [components/TimeIndicator.tsx], of the zoom buttons and period texts of
    [screens/TimelineScreen.tsx] and of the lookup of
    [screens/MovementDetailScreen.tsx].

    Conventions of the embedding.
    - Calendar years are integers ([Z]).
    - Pixel quantities (scroll offsets, padding, pixels per year, zoom) are
      JavaScript numbers.  Their finite values are rationals ([Q]), and the
      axis arithmetic comes in two versions.  The functions named as in the
      source compute with exact rationals, the one case written out being
      the division by a zero [PIXELS_PER_YEAR] ([js_div]); they are the
      program as long as every intermediate result is a double.  The
      functions whose names end in [64] round every operation to binary64
      ([round64]: nearest double, ties to even, subnormal numbers, overflow
      to an infinity) and are the program on all inputs; what depends on
      rounding is stated about them.
    - A [Movement] is a JavaScript object: arrays hold references ([loc]) into
      a store ([loc → Movement]), and [Array.prototype.indexOf] compares
      references, as [===] does on objects.
    - The [while (true)] probe loop and the [for] loop of the markers take a
      fuel argument; the theorems below show how much fuel is always
      enough. *)

From Stdlib Require Import ZArith QArith Qround Qminmax Qreduction Qpower Qabs.
From Stdlib Require Import Lqa Lia Floats.
From stdpp Require Import gmap strings list fin_maps sorting pretty.

Local Open Scope Z_scope.

(** ** Data model ([src/types/index.ts]) *)

(** [interface TimePeriod { start: number; end?: number }] *)
Record TimePeriod := mkPeriod {
  start : Z;
  end_ : option Z
}.

(** [interface Movement]; the optional members are [option]s. *)
Record Movement := mkMovement {
  id : string;
  name : string;
  period : TimePeriod;
  description : string;
  shortDescription : string;
  color : string;
  region : option string;
  keyArtists : option (list string);
  keyWorks : option (list string);
  imageUrl : option string
}.

(** ** JavaScript numbers and completions *)

(** A number that can come out of the axis arithmetic: a finite value or one
    of the three non-finite doubles. *)
Inductive number :=
  | Num (q : Q)
  | PosInfinity
  | NegInfinity
  | NaN.

(** [a / b] on finite operands: a zero divisor gives an infinity, of the sign
    of the dividend, or [NaN] for [0 / 0]; the sign of a negative zero is not
    represented. *)
Definition js_div (a b : Q) : number :=
  if Qeq_bool b 0 then
    match (a ?= 0)%Q with
    | Gt => PosInfinity
    | Lt => NegInfinity
    | Eq => NaN
    end
  else Num (a / b).

(** [a + b] with a finite left operand. *)
Definition js_add (a : Q) (b : number) : number :=
  match b with
  | Num q => Num (a + q)
  | other => other
  end.

(** [Math.round]: nearest integer, ties towards +Infinity; the non-finite
    values are returned unchanged. *)
Definition Math_round (x : number) : number :=
  match x with
  | Num q => Num (inject_Z (Qfloor (q + (1 # 2))))
  | other => other
  end.

(** [Math.floor] and [Math.ceil]. *)
Definition Math_floor (x : number) : number :=
  match x with
  | Num q => Num (inject_Z (Qfloor q))
  | other => other
  end.

Definition Math_ceil (x : number) : number :=
  match x with
  | Num q => Num (inject_Z (Qceiling q))
  | other => other
  end.

(** [Math.max] and [Math.min] of two arguments: [NaN] is contagious. *)
Definition Math_max (a b : number) : number :=
  match a, b with
  | NaN, _ | _, NaN => NaN
  | PosInfinity, _ | _, PosInfinity => PosInfinity
  | NegInfinity, x | x, NegInfinity => x
  | Num p, Num q => if Qle_bool p q then Num q else Num p
  end.

Definition Math_min (a b : number) : number :=
  match a, b with
  | NaN, _ | _, NaN => NaN
  | NegInfinity, _ | _, NegInfinity => NegInfinity
  | PosInfinity, x | x, PosInfinity => x
  | Num p, Num q => if Qle_bool p q then Num p else Num q
  end.

(** *** Binary64 arithmetic

    A finite double is zero or [m * 2^e] with [|m| < 2^53] and [-1074 <= e];
    an arithmetic operation returns the double nearest to the exact result,
    a tie going to the even significand, and an infinity when that double
    would reach [2^1024].  Finite doubles are carried as the rationals they
    denote; the sign of a zero is not represented. *)

Definition pow2 (e : Z) : Q := Qpower 2 e.

(** For [q > 0], the exponent [e] with [2^e <= q < 2^(e+1)]. *)
Definition ilog2 (q : Q) : Z :=
  let e0 := Z.log2 (Qnum q) - Z.log2 (Zpos (Qden q)) in
  if Qle_bool (pow2 e0) q then e0 else e0 - 1.

(** The nearest integer, a tie going to the even one. *)
Definition rne (q : Q) : Z :=
  let f := Qfloor q in
  match (q - inject_Z f ?= 1 # 2)%Q with
  | Lt => f
  | Gt => f + 1
  | Eq => if Z.even f then f else f + 1
  end.

(** The exponent of the last place of the doubles next to [q]: 52 below the
    exponent of [q], and -1074 among the subnormal numbers. *)
Definition quantum (q : Q) : Z := Z.max (ilog2 (Qabs q) - 52) (-1074).

(** The multiple of [2^quantum] nearest to [q]. *)
Definition nearest (q : Q) : Q :=
  (inject_Z (rne (q / pow2 (quantum q))) * pow2 (quantum q))%Q.

(** The double an operation returns when its exact result is [x]. *)
Definition round64 (x : Q) : number :=
  let v := Qred (nearest (Qred x)) in
  if Qle_bool (pow2 1024) (Qabs v)
  then (if Qle_bool 0 v then PosInfinity else NegInfinity)
  else Num v.

(** Unary minus. *)
Definition neg (a : number) : number :=
  match a with
  | Num q => Num (- q)
  | PosInfinity => NegInfinity
  | NegInfinity => PosInfinity
  | NaN => NaN
  end.

(** [a + b] *)
Definition add64 (a b : number) : number :=
  match a, b with
  | NaN, _ | _, NaN => NaN
  | Num p, Num q => round64 (p + q)
  | PosInfinity, NegInfinity | NegInfinity, PosInfinity => NaN
  | PosInfinity, _ | _, PosInfinity => PosInfinity
  | NegInfinity, _ | _, NegInfinity => NegInfinity
  end.

(** [a - b] *)
Definition sub64 (a b : number) : number := add64 a (neg b).

(** An infinity times the finite [q]: the sign is the product of the signs,
    and [Infinity * 0] is [NaN]. *)
Definition scaled_infinity (positive : bool) (q : Q) : number :=
  match (q ?= 0)%Q with
  | Eq => NaN
  | Gt => if positive then PosInfinity else NegInfinity
  | Lt => if positive then NegInfinity else PosInfinity
  end.

(** [a * b] *)
Definition mul64 (a b : number) : number :=
  match a, b with
  | NaN, _ | _, NaN => NaN
  | Num p, Num q => round64 (p * q)
  | Num p, PosInfinity | PosInfinity, Num p => scaled_infinity true p
  | Num p, NegInfinity | NegInfinity, Num p => scaled_infinity false p
  | PosInfinity, PosInfinity | NegInfinity, NegInfinity => PosInfinity
  | PosInfinity, NegInfinity | NegInfinity, PosInfinity => NegInfinity
  end.

(** [a / b]; a zero divisor is taken to be the positive zero. *)
Definition div64 (a b : number) : number :=
  match a, b with
  | NaN, _ | _, NaN => NaN
  | Num p, Num q =>
      match js_div p q with
      | Num r => round64 r
      | other => other
      end
  | Num _, _ => Num 0
  | PosInfinity, Num q => if Qle_bool 0 q then PosInfinity else NegInfinity
  | NegInfinity, Num q => if Qle_bool 0 q then NegInfinity else PosInfinity
  | _, _ => NaN
  end.

(** [a <= b]: false as soon as one side is [NaN]. *)
Definition js_le (a b : number) : bool :=
  match a, b with
  | NaN, _ | _, NaN => false
  | NegInfinity, _ | _, PosInfinity => true
  | Num p, Num q => Qle_bool p q
  | _, _ => false
  end.

(** The value of one of Rocq's primitive binary64 floats. *)
Definition float_value (f : float) : number :=
  match Prim2SF f with
  | S754_zero _ => Num 0
  | S754_infinity s => if s then NegInfinity else PosInfinity
  | S754_nan => NaN
  | S754_finite s m e =>
      Num (Qred (inject_Z (if s then Zneg m else Zpos m) * pow2 e))
  end.

(** The integer year [z] as a number. *)
Definition year (z : Z) : number := Num (inject_Z z).

(** How a call ends: with a value, or by throwing an error of some name. *)
Inductive completion (A : Type) :=
  | Normal (value : A)
  | Throw (error : string).
Arguments Normal {A} value.
Arguments Throw {A} error.

(** [Number.prototype.toString] on an integer year: its decimal digits. *)
Definition toString (z : Z) : string := pretty z.

(** [!x] on an optional year: [undefined] and [0] are falsy. *)
Definition falsy (x : option Z) : bool :=
  match x with
  | None => true
  | Some z => z =? 0
  end.

(** ** Axis mapper ([src/utils/timeline.ts]) *)

Record TimelineConfig := mkConfig {
  PIXELS_PER_YEAR : Q;
  TIMELINE_PADDING : Q;
  MOVEMENT_HEIGHT : Q;
  MOVEMENT_SPACING : Q
}.

Definition TIMELINE_CONFIG : TimelineConfig :=
  {| PIXELS_PER_YEAR := 2;
     TIMELINE_PADDING := 100;
     MOVEMENT_HEIGHT := 60;
     MOVEMENT_SPACING := 10 |}.

Definition yearToScrollOffset (y : Z) (timeRange : TimePeriod)
    (config : TimelineConfig) : Q :=
  let startYear := start timeRange in
  let yearOffset := inject_Z (y - startYear) in
  (TIMELINE_PADDING config + yearOffset * PIXELS_PER_YEAR config)%Q.

Definition scrollOffsetToYear (scrollOffset : Q) (timeRange : TimePeriod)
    (config : TimelineConfig) : number :=
  let startYear := start timeRange in
  let adjustedOffset := (scrollOffset - TIMELINE_PADDING config)%Q in
  let yearOffset := js_div adjustedOffset (PIXELS_PER_YEAR config) in
  Math_round (js_add (inject_Z startYear) yearOffset).

(** The year [scrollOffsetToYear] returns when the division is finite. *)
Definition roundedYear (scrollOffset : Q) (timeRange : TimePeriod)
    (config : TimelineConfig) : Z :=
  Qfloor (inject_Z (start timeRange)
          + (scrollOffset - TIMELINE_PADDING config) / PIXELS_PER_YEAR config
          + (1 # 2)).

(** The body of [scrollOffsetToYear] is arithmetic and [Math.round] on
    numbers; it has no [throw] and calls nothing that throws, so every call
    completes normally. *)
Definition scrollOffsetToYear_completion (scrollOffset : Q)
    (timeRange : TimePeriod) (config : TimelineConfig) : completion number :=
  Normal (scrollOffsetToYear scrollOffset timeRange config).

Definition calculateTimelineHeight (timeRange : TimePeriod)
    (config : TimelineConfig) : Q :=
  let s := start timeRange in
  let e := default s (end_ timeRange) in
  let totalYears := inject_Z (e - s) in
  (totalYears * PIXELS_PER_YEAR config + 2 * TIMELINE_PADDING config)%Q.

Definition getMovementHeight (mv : Movement) (config : TimelineConfig) : Q :=
  let s := start (period mv) in
  let e := default s (end_ (period mv)) in
  let duration := inject_Z (e - s) in
  let minHeight := MOVEMENT_HEIGHT config in
  let calculatedHeight := (duration * PIXELS_PER_YEAR config)%Q in
  if Qle_bool minHeight calculatedHeight then calculatedHeight else minHeight.

(** [formatYearRange]: a template literal joins the two years. *)
Definition formatYearRange (p : TimePeriod) : string :=
  if falsy (end_ p) || bool_decide (end_ p = Some (start p))
  then toString (start p)
  else toString (start p) +:+ " - " +:+ toString (default 0 (end_ p)).

(** ** [components/TimeIndicator.tsx] *)

Definition formatRange (range : TimePeriod) : string :=
  if falsy (end_ range) || bool_decide (end_ range = Some (start range))
  then toString (start range)
  else toString (start range) +:+ " - " +:+ toString (default 0 (end_ range)).

(** ** Viewport tracker ([components/Timeline.tsx]) *)

(** [{ ...TIMELINE_CONFIG, PIXELS_PER_YEAR: TIMELINE_CONFIG.PIXELS_PER_YEAR * zoomLevel }] *)
Definition zoomedConfig (zoomLevel : Q) : TimelineConfig :=
  {| PIXELS_PER_YEAR := (PIXELS_PER_YEAR TIMELINE_CONFIG * zoomLevel)%Q;
     TIMELINE_PADDING := TIMELINE_PADDING TIMELINE_CONFIG;
     MOVEMENT_HEIGHT := MOVEMENT_HEIGHT TIMELINE_CONFIG;
     MOVEMENT_SPACING := MOVEMENT_SPACING TIMELINE_CONFIG |}.

(** [timeRange.end || timeRange.start] *)
Definition end_or_start (timeRange : TimePeriod) : Z :=
  if falsy (end_ timeRange) then start timeRange
  else default 0 (end_ timeRange).

(** The object [newRange] built by [updateVisibleRange]. *)
Record VisibleRange := mkRange {
  range_start : number;
  range_end : number
}.

Definition updateVisibleRange (screenHeight : Q) (timeRange : TimePeriod)
    (config : TimelineConfig) (offset : Q) : VisibleRange :=
  let viewportHeight := (screenHeight - 200)%Q in
  let startYear := scrollOffsetToYear offset timeRange config in
  let endYear := scrollOffsetToYear (offset + viewportHeight)%Q timeRange config in
  {| range_start := Math_max startYear (year (start timeRange));
     range_end := Math_min endYear (year (end_or_start timeRange)) |}.

(** *** The viewport arithmetic in binary64

    [yearToScrollOffset], [scrollOffsetToYear] and [updateVisibleRange] once
    more, every operation now rounding as the doubles of the program do.
    The definitions above compute with exact rationals; they agree with
    these as long as every intermediate result is a double. *)

Definition yearToScrollOffset64 (y : number) (timeRange : TimePeriod)
    (config : TimelineConfig) : number :=
  let startYear := year (start timeRange) in
  let yearOffset := sub64 y startYear in
  add64 (Num (TIMELINE_PADDING config))
        (mul64 yearOffset (Num (PIXELS_PER_YEAR config))).

Definition scrollOffsetToYear64 (scrollOffset : number)
    (timeRange : TimePeriod) (config : TimelineConfig) : number :=
  let startYear := year (start timeRange) in
  let adjustedOffset := sub64 scrollOffset (Num (TIMELINE_PADDING config)) in
  let yearOffset := div64 adjustedOffset (Num (PIXELS_PER_YEAR config)) in
  Math_round (add64 startYear yearOffset).

Definition updateVisibleRange64 (screenHeight : Q) (timeRange : TimePeriod)
    (config : TimelineConfig) (offset : Q) : VisibleRange :=
  let viewportHeight := sub64 (Num screenHeight) (Num 200) in
  let startYear := scrollOffsetToYear64 (Num offset) timeRange config in
  let endYear :=
    scrollOffsetToYear64 (add64 (Num offset) viewportHeight) timeRange config in
  {| range_start := Math_max startYear (year (start timeRange));
     range_end := Math_min endYear (year (end_or_start timeRange)) |}.

(** ** Overlap resolver ([src/utils/timeline.ts]) *)

Definition movementsOverlap (movement1 movement2 : Movement) : bool :=
  let start1 := start (period movement1) in
  let end1 := default start1 (end_ (period movement1)) in
  let start2 := start (period movement2) in
  let end2 := default start2 (end_ (period movement2)) in
  negb ((end1 <=? start2) || (end2 <=? start1)).

(** A reference to a [Movement] object. *)
Definition loc := nat.

(** An element [{ movement, originalIndex }] of a column; [originalIndex] is
    the result of [indexOf], [None] standing for [-1]. *)
Record entry := mkEntry {
  movement : loc;
  originalIndex : option nat
}.

(** The two objects the [forEach] callback mutates: the dictionary [columns]
    and the array [columnAssignments]. *)
Record state := mkState {
  columns : gmap Z (list entry);
  columnAssignments : list Z
}.

(** [movements.indexOf(movement)]: the first index holding the same
    reference, [None] for [-1]. *)
Fixpoint indexOf (movements : list loc) (mv : loc) : option nat :=
  match movements with
  | [] => None
  | m :: rest => if decide (m = mv) then Some 0%nat else S <$> indexOf rest mv
  end.

(** [if (!columns[c]) { columns[c] = []; }]: an array, even empty, is truthy. *)
Definition ensure (c : Z) (cols : gmap Z (list entry)) : gmap Z (list entry) :=
  match cols !! c with
  | Some _ => cols
  | None => <[c := []]> cols
  end.

(** [columns[c]] once it is known to exist. *)
Definition column (c : Z) (cols : gmap Z (list entry)) : list entry :=
  default [] (cols !! c).

(** [columns[c].push(e)] *)
Definition push (c : Z) (e : entry) (cols : gmap Z (list entry)) :
    gmap Z (list entry) :=
  <[c := column c cols ++ [e]]> cols.

(** [columnAssignments[originalIndex] = c].  An index of [-1] would name a
    property and change no element; [indexOf] never returns an index past the
    end ([indexOf_lt]), where JavaScript would extend the array. *)
Definition assign (i : option nat) (c : Z) (a : list Z) : list Z :=
  match i with
  | Some n => <[n := c]> a
  | None => a
  end.

Section Resolver.
(** The store: the object each reference denotes. *)
Variable heap : loc → Movement.

Definition startOf (r : loc) : Z := start (period (heap r)).

(** [[...movements].sort((a, b) => a.period.start - b.period.start)]:
    [Array.prototype.sort] is stable, so its result is that of a stable
    insertion sort with the same comparator. *)
Fixpoint insert_by_start (a : loc) (sorted : list loc) : list loc :=
  match sorted with
  | [] => [a]
  | b :: rest =>
      if startOf a - startOf b <=? 0 then a :: b :: rest
      else b :: insert_by_start a rest
  end.

Definition sort (movements : list loc) : list loc :=
  foldr insert_by_start [] movements.

(** [column.some(col => movementsOverlap(movement, col.movement))] *)
Definition some_overlap (mv : loc) (col : list entry) : bool :=
  existsb (λ e, movementsOverlap (heap mv) (heap (movement e))) col.

(** The state after [columns[c].push({ movement, originalIndex })] and
    [columnAssignments[originalIndex] = c]. *)
Definition placed (mv : loc) (i : option nat) (c : Z) (st : state) : state :=
  {| columns := push c (mkEntry mv i) (columns st);
     columnAssignments := assign i c (columnAssignments st) |}.

(** The [while (true)] loop, from the state [(columnIndex, useLeftSide)]. *)
Fixpoint probe (fuel : nat) (mv : loc) (i : option nat)
    (columnIndex : Z) (useLeftSide : bool) (st : state) : option state :=
  match fuel with
  | O => None
  | S fuel' =>
      let currentColumn := if useLeftSide then - columnIndex else columnIndex in
      let st1 := mkState (ensure currentColumn (columns st)) (columnAssignments st) in
      let hasOverlap := some_overlap mv (column currentColumn (columns st1)) in
      if negb hasOverlap then Some (placed mv i currentColumn st1)
      else if useLeftSide then probe fuel' mv i columnIndex false st1
      else probe fuel' mv i (columnIndex + 1) true st1
  end.

(** The callback of [sortedMovements.forEach]. *)
Definition place (fuel : nat) (movements : list loc) (st : state)
    (mv : loc) : option state :=
  let i := indexOf movements mv in
  let st0 := mkState (ensure 0 (columns st)) (columnAssignments st) in
  let centerHasOverlap := some_overlap mv (column 0 (columns st0)) in
  if negb centerHasOverlap then Some (placed mv i 0 st0)
  else probe fuel mv i 1 true st0.

Fixpoint forEach (fuel : nat) (movements sortedMovements : list loc)
    (st : state) : option state :=
  match sortedMovements with
  | [] => Some st
  | mv :: rest => place fuel movements st mv ≫= forEach fuel movements rest
  end.

Definition initial (movements : list loc) : state :=
  {| columns := ∅; columnAssignments := replicate (length movements) 0 |}.

(** The final [columns] and [columnAssignments], every probe loop running
    on [fuel]. *)
Definition arrange (fuel : nat) (movements : list loc) : option state :=
  forEach fuel movements (sort movements) (initial movements).

Definition arrangeMovementsInColumns_fuel (fuel : nat)
    (movements : list loc) : option (list Z) :=
  columnAssignments <$> arrange fuel movements.

(** A probe loop over [n] input movements never needs more than [n]
    iterations, and more fuel changes nothing ([arrange_total]). *)
Definition arrangeMovementsInColumns (movements : list loc) :
    option (list Z) :=
  arrangeMovementsInColumns_fuel (length movements) movements.
End Resolver.

(** The probe sequence of the loop: its [n]-th iteration (from 0) tries
    [probeColumn n]. *)
Definition probeColumn (n : nat) : Z :=
  if Nat.even n then - (Z.of_nat (n / 2) + 1) else Z.of_nat (n / 2) + 1.

(** A sum over the columns of the dictionary. *)
Definition weight (f : list entry → nat) (cols : gmap Z (list entry)) : nat :=
  sum_list ((λ kv, f kv.2) <$> map_to_list cols).

(** The number of occupants, over all columns, that overlap [mv]. *)
Definition overlapping (heap : loc → Movement) (mv : loc)
    (cols : gmap Z (list entry)) : nat :=
  weight (λ col, length (filter
    (λ e, movementsOverlap (heap mv) (heap (movement e)) = true) col)) cols.

(** The number of occupants over all columns. *)
Definition occupants (cols : gmap Z (list entry)) : nat := weight length cols.

(** [c] holds no occupant overlapping [mv]. *)
Definition free (heap : loc → Movement) (mv : loc)
    (cols : gmap Z (list entry)) (c : Z) : Prop :=
  some_overlap heap mv (column c cols) = false.

(** [c] is the first column without conflict in the order
    0, -1, +1, -2, +2, ... *)
Definition Chosen (heap : loc → Movement) (mv : loc)
    (cols : gmap Z (list entry)) (c : Z) : Prop :=
  (free heap mv cols 0 ∧ c = 0)
  ∨ (¬ free heap mv cols 0
     ∧ ∃ k : nat, c = probeColumn k
         ∧ free heap mv cols (probeColumn k)
         ∧ ∀ j : nat, (j < k)%nat → ¬ free heap mv cols (probeColumn j)).

(** The order the sort establishes. *)
Definition by_start (heap : loc → Movement) (a b : loc) : Prop :=
  startOf heap a ≤ startOf heap b.

(** What every run keeps true of the two mutated objects: each stored
    index is the one [indexOf] gave, and an index that [indexOf] never
    returns still holds the initial 0. *)
Record recorded (movements : list loc) (st : state) : Prop := {
  recorded_length : length (columnAssignments st) = length movements;
  recorded_index : ∀ c e,
    e ∈ column c (columns st) → originalIndex e = indexOf movements (movement e);
  recorded_untouched : ∀ j,
    (j < length movements)%nat → (∀ m, indexOf movements m ≠ Some j) →
    columnAssignments st !! j = Some 0
}.

(** What holds once the pairwise distinct movements [done] are placed: the
    occupants are the placed movements, each one's column is recorded at its
    index, and occupants of one column do not overlap. *)
Record separated (heap : loc → Movement) (movements done : list loc)
    (st : state) : Prop := {
  separated_length : length (columnAssignments st) = length movements;
  separated_done : ∀ c e, e ∈ column c (columns st) → movement e ∈ done;
  separated_assigned : ∀ c e i,
    e ∈ column c (columns st) → indexOf movements (movement e) = Some i →
    columnAssignments st !! i = Some c;
  separated_placed : ∀ m,
    m ∈ done → ∃ c e, e ∈ column c (columns st) ∧ movement e = m;
  separated_apart : ∀ c e1 e2,
    e1 ∈ column c (columns st) → e2 ∈ column c (columns st) →
    movement e1 ≠ movement e2 →
    movementsOverlap (heap (movement e1)) (heap (movement e2)) = false
}.

(** What holds once the movements [done], repeated or not, are placed: the
    first position of each holds a column in which it sits. *)
Definition traced (movements done : list loc) (st : state) : Prop :=
  length (columnAssignments st) = length movements
  ∧ ∀ m, m ∈ done →
      ∃ c e i, indexOf movements m = Some i
               ∧ columnAssignments st !! i = Some c
               ∧ e ∈ column c (columns st) ∧ movement e = m.

(** Two states whose columns hold the same movements in the same order. *)
Definition same_occupants (st1 st2 : state) : Prop :=
  ∀ c, movement <$> column c (columns st1) = movement <$> column c (columns st2).

(** [c'] is tried before [c]: it is nearer to the centre, or it is the left
    column at the distance of the right column [c]. *)
Definition tried_before (c' c : Z) : Prop :=
  Z.abs c' < Z.abs c ∨ (c' = - c ∧ 0 < c).

(** The columns in use have no gap: with a column, every column tried
    before it is in use. *)
Definition compact (st : state) : Prop :=
  ∀ c c', column c (columns st) ≠ [] → tried_before c' c →
          column c' (columns st) ≠ [].

(** The two stores give [r] the same period. *)
Definition same_period (heap1 heap2 : loc → Movement) (r : loc) : Prop :=
  period (heap1 r) = period (heap2 r).

(** Every occupant has the same period in both stores. *)
Definition same_periods (heap1 heap2 : loc → Movement) (st : state) : Prop :=
  ∀ c e, e ∈ column c (columns st) → same_period heap1 heap2 (movement e).

(** [lo <= range.start <= range.end <= hi], all four being finite. *)
Definition lies_within (lo hi : Z) (r : VisibleRange) : bool :=
  match range_start r, range_end r with
  | Num s, Num e =>
      Qle_bool (inject_Z lo) s && Qle_bool s e && Qle_bool e (inject_Z hi)
  | _, _ => false
  end.

(** ** Fixtures of [timeline.utils.test.ts] *)

Definition mockTimeRange : TimePeriod := mkPeriod 1400 (Some 1920).

Definition mockMovement (ident : string) (s e : Z) : Movement :=
  {| id := ident; name := "Test Movement"; period := mkPeriod s (Some e);
     description := "Test"; shortDescription := "Test"; color := "#000000";
     region := None; keyArtists := None; keyWorks := None; imageUrl := None |}.

(** A store holding the given objects at the references 0, 1, ... *)
Definition storeOf (objects : list Movement) (r : loc) : Movement :=
  default (mockMovement "" 0 0) (objects !! r).

(** The overlapping pair of the test, and the state once its first
    movement occupies the centre. *)
Definition overlappingPair : loc → Movement :=
  storeOf [mockMovement "test1" 1400 1600; mockMovement "test2" 1500 1700].

Definition centreTaken : state := placed 0%nat (Some 0%nat) 0 (initial [0; 1]%nat).

(** Three movements with distinct start years. *)
Definition threeMovements : loc → Movement :=
  storeOf [mockMovement "test1" 1400 1600; mockMovement "test2" 1500 1700;
           mockMovement "test3" 1550 1800].

(** One object listed three times. *)
Definition oneMovement : loc → Movement :=
  storeOf [mockMovement "test1" 1400 1600].

(** Three objects with the same members. *)
Definition threeEqualMovements : loc → Movement :=
  storeOf [mockMovement "test1" 1400 1600; mockMovement "test1" 1400 1600;
           mockMovement "test1" 1400 1600].

(** ** Half-century markers and pinch zoom ([components/Timeline.tsx]) *)

(** [Math.floor(y / 50) * 50] and [Math.ceil(y / 50) * 50] on an integer
    year. *)
Definition floorHalfCentury (y : Z) : Z := y / 50 * 50.
Definition ceilHalfCentury (y : Z) : Z := - (- y / 50) * 50.

(** A marker: its [key], the year, and its [top]. *)
Record marker := mkMarker {
  marker_year : Z;
  marker_top : Q
}.

(** [for (let year = ...; year <= endHalfCentury; year += 50)], from [y];
    [None] when the fuel runs out before the loop ends. *)
Fixpoint markerLoop (fuel : nat) (timeRange : TimePeriod)
    (config : TimelineConfig) (endHalfCentury y : Z) : option (list marker) :=
  match fuel with
  | O => None
  | S fuel' =>
      if y <=? endHalfCentury then
        rest ← markerLoop fuel' timeRange config endHalfCentury (y + 50);
        Some (if (start timeRange <=? y) && (y <=? end_or_start timeRange)
              then mkMarker y (yearToScrollOffset y timeRange config) :: rest
              else rest)
      else Some []
  end.

Definition generateHalfCenturyMarkers (fuel : nat) (timeRange : TimePeriod)
    (config : TimelineConfig) : option (list marker) :=
  let startHalfCentury := floorHalfCentury (start timeRange) in
  let endHalfCentury := ceilHalfCentury (end_or_start timeRange) in
  markerLoop fuel timeRange config endHalfCentury startHalfCentury.

(** The same loop on the doubles of the program: [year] is a number, the
    bounds are computed with [Math.floor], [Math.ceil], a division and a
    multiplication, and [year += 50] rounds. *)
Record marker64 := mkMarker64 {
  marker64_year : number;
  marker64_top : number
}.

Fixpoint markerLoop64 (fuel : nat) (timeRange : TimePeriod)
    (config : TimelineConfig) (endHalfCentury y : number)
    : option (list marker64) :=
  match fuel with
  | O => None
  | S fuel' =>
      if js_le y endHalfCentury then
        rest ← markerLoop64 fuel' timeRange config endHalfCentury
                 (add64 y (Num 50));
        Some (if js_le (year (start timeRange)) y
                 && js_le y (year (end_or_start timeRange))
              then mkMarker64 y (yearToScrollOffset64 y timeRange config)
                   :: rest
              else rest)
      else Some []
  end.

Definition generateHalfCenturyMarkers64 (fuel : nat) (timeRange : TimePeriod)
    (config : TimelineConfig) : option (list marker64) :=
  let startHalfCentury :=
    mul64 (Math_floor (div64 (year (start timeRange)) (Num 50))) (Num 50) in
  let endHalfCentury :=
    mul64 (Math_ceil (div64 (year (end_or_start timeRange)) (Num 50)))
          (Num 50) in
  markerLoop64 fuel timeRange config endHalfCentury startHalfCentury.

(** The marker of the integer year [z]. *)
Definition markerOf (timeRange : TimePeriod) (config : TimelineConfig)
    (z : Z) : marker64 :=
  mkMarker64 (year z) (yearToScrollOffset64 (year z) timeRange config).

(** [handlePinchGestureEvent]: the zoom level handed to [onZoomChange], if
    that callback is given; [baseZoomLevel] and [scale] are finite. *)
Definition handlePinchGestureEvent (onZoomChange : bool)
    (baseZoomLevel scale : Q) : option Q :=
  if onZoomChange
  then Some (Qmax (1 # 2) (Qmin 3 (baseZoomLevel * scale)))
  else None.

(** ** Zoom buttons and header ([screens/TimelineScreen.tsx]) *)

Definition handleZoomIn (prev : Q) : Q := Qmin (prev * (3 # 2)) 3.
Definition handleZoomOut (prev : Q) : Q := Qmax (prev / (3 # 2)) (1 # 2).

Inductive zoomPress := PressZoomIn | PressZoomOut.

Definition zoomAfterPress (zoomLevel : Q) (p : zoomPress) : Q :=
  match p with
  | PressZoomIn => handleZoomIn zoomLevel
  | PressZoomOut => handleZoomOut zoomLevel
  end.

(** The zoom level after a sequence of presses, from [useState(2)]. *)
Definition zoomLevelAfter (presses : list zoomPress) : Q :=
  foldl zoomAfterPress 2%Q presses.

(** The text of the header subtitle: the children [visibleRange.start] and
    the conditional string, one after the other. *)
Definition headerSubtitle (visibleRange : TimePeriod) : string :=
  toString (start visibleRange)
  +:+ (if negb (falsy (end_ visibleRange))
          && negb (bool_decide (end_ visibleRange = Some (start visibleRange)))
       then " - " +:+ toString (default 0 (end_ visibleRange))
       else "").

(** The period line of the modal and of the detail screen: the children
    [period.start] and [period.end && ` - ${period.end}`].  The second child
    is [undefined] (no text) for an absent end, the number [0] (shown as
    its digit) for an end of 0, and the string otherwise. *)
Definition periodLine (p : TimePeriod) : string :=
  toString (start p)
  +:+ match end_ p with
      | None => ""
      | Some e => if e =? 0 then toString 0 else " - " +:+ toString e
      end.

(** ** [screens/MovementDetailScreen.tsx] *)

(** What the screen shows. *)
Inductive detailView :=
  | MovementNotFound
  | MovementDetails (movement : Movement).

(** [data.find(m => m.id === movementId)], over the movements [data] of
    [data/european-art-movements]. *)
Definition findMovement (data : list Movement) (movementId : string) :
    option Movement :=
  snd <$> list_find (λ m, id m = movementId) data.

Definition MovementDetailScreen (data : list Movement) (movementId : string) :
    detailView :=
  match findMovement data movementId with
  | None => MovementNotFound
  | Some m => MovementDetails m
  end.

(** ** The tests of [timeline.utils.test.ts] *)

Example yearToScrollOffset_start :
  yearToScrollOffset 1400 mockTimeRange TIMELINE_CONFIG = 100%Q.
Proof. reflexivity. Qed.

Example scrollOffsetToYear_rounds :
  scrollOffsetToYear (100 + (1007 # 10) * 2)%Q mockTimeRange TIMELINE_CONFIG
  = year 1501.
Proof. reflexivity. Qed.

Example formatYearRange_range :
  formatYearRange (mkPeriod 1400 (Some 1600)) = "1400 - 1600"%string.
Proof. reflexivity. Qed.

Example formatYearRange_single :
  formatYearRange (mkPeriod 1500 None) = "1500"%string.
Proof. reflexivity. Qed.

Example arrange_touching :
  arrangeMovementsInColumns
    (storeOf [mockMovement "test1" 1400 1500; mockMovement "test2" 1600 1700])
    [0; 1]%nat = Some [0; 0].
Proof. vm_compute. reflexivity. Qed.

(** ** Axis mapper: rounding and the round trip *)

Lemma Qfloor_unique (x : Q) (z : Z) :
  (inject_Z z <= x)%Q → (x < inject_Z (z + 1))%Q → Qfloor x = z.
Proof.
  intros Hlo Hhi.
  pose proof (Qfloor_le x) as Hf1.
  pose proof (Qlt_floor x) as Hf2.
  assert (inject_Z (Qfloor x) < inject_Z (z + 1))%Q as H1
    by (eapply Qle_lt_trans; eauto).
  assert (inject_Z z < inject_Z (Qfloor x + 1))%Q as H2
    by (eapply Qle_lt_trans; eauto).
  rewrite <- Zlt_Qlt in H1, H2. lia.
Qed.

Lemma round_integer (z : Z) : Qfloor (inject_Z z + (1 # 2)) = z.
Proof.
  apply Qfloor_unique.
  - lra.
  - rewrite inject_Z_plus. change (inject_Z 1) with 1%Q. lra.
Qed.

Lemma js_div_nonzero (a b : Q) : ¬ (b == 0)%Q → js_div a b = Num (a / b).
Proof.
  intros Hb. unfold js_div.
  destruct (Qeq_bool b 0) eqn:E; [|done].
  apply Qeq_bool_iff in E. contradiction.
Qed.

Lemma js_div_zero (a b : Q) :
  (b == 0)%Q →
  js_div a b = PosInfinity ∨ js_div a b = NegInfinity ∨ js_div a b = NaN.
Proof.
  intros Hb. unfold js_div.
  apply Qeq_bool_iff in Hb. rewrite Hb.
  destruct (a ?= 0)%Q; auto.
Qed.

Lemma scrollOffsetToYear_nonzero scrollOffset timeRange config :
  ¬ (PIXELS_PER_YEAR config == 0)%Q →
  scrollOffsetToYear scrollOffset timeRange config
  = year (roundedYear scrollOffset timeRange config).
Proof.
  intros Hp. unfold scrollOffsetToYear. cbv zeta.
  rewrite js_div_nonzero by done. reflexivity.
Qed.

Lemma roundedYear_mono o1 o2 timeRange config :
  (0 < PIXELS_PER_YEAR config)%Q → (o1 <= o2)%Q →
  roundedYear o1 timeRange config ≤ roundedYear o2 timeRange config.
Proof.
  intros Hp Ho. unfold roundedYear. apply Qfloor_resp_le.
  apply Qplus_le_l, Qplus_le_r.
  unfold Qdiv. apply Qmult_le_compat_r.
  - lra.
  - apply Qlt_le_weak, Qinv_lt_0_compat, Hp.
Qed.

Lemma Math_max_year (a b : Z) : Math_max (year a) (year b) = year (Z.max a b).
Proof.
  unfold Math_max, year.
  destruct (Qle_bool (inject_Z a) (inject_Z b)) eqn:E.
  - apply Qle_bool_iff in E. rewrite <- Zle_Qle in E.
    by rewrite Z.max_r.
  - assert (¬ a ≤ b) as Hn.
    { intros Hle. rewrite Zle_Qle in Hle. apply Qle_bool_iff in Hle. congruence. }
    by rewrite Z.max_l by lia.
Qed.

Lemma Math_min_year (a b : Z) : Math_min (year a) (year b) = year (Z.min a b).
Proof.
  unfold Math_min, year.
  destruct (Qle_bool (inject_Z a) (inject_Z b)) eqn:E.
  - apply Qle_bool_iff in E. rewrite <- Zle_Qle in E.
    by rewrite Z.min_l.
  - assert (¬ a ≤ b) as Hn.
    { intros Hle. rewrite Zle_Qle in Hle. apply Qle_bool_iff in Hle. congruence. }
    by rewrite Z.min_r by lia.
Qed.

Lemma lies_within_years (lo hi s e : Z) :
  lies_within lo hi (mkRange (year s) (year e)) = true ↔ lo ≤ s ∧ s ≤ e ∧ e ≤ hi.
Proof.
  unfold lies_within, year. simpl.
  rewrite !andb_true_iff, !Qle_bool_iff, <- !Zle_Qle. tauto.
Qed.

(** ** Binary64 arithmetic: powers of two *)
Lemma pow2_pos (e : Z) : (0 < pow2 e)%Q.
Proof. by apply Qpower_0_lt. Qed.

Lemma pow2_le (a b : Z) : a ≤ b → (pow2 a <= pow2 b)%Q.
Proof. intros. by apply Qpower_le_compat_l. Qed.

Lemma pow2_lt (a b : Z) : a < b → (pow2 a < pow2 b)%Q.
Proof. intros. by apply Qpower_lt_compat_l. Qed.

Lemma pow2_sub (a b : Z) : (pow2 (a - b) == pow2 a / pow2 b)%Q.
Proof. by apply Qpower_minus. Qed.

Lemma pow2_nonneg (e : Z) : 0 ≤ e → (pow2 e == inject_Z (2 ^ e))%Q.
Proof. intros He. unfold pow2. by rewrite Zpower_Qpower. Qed.

Lemma pow2_succ (e : Z) : (pow2 (e + 1) == 2 * pow2 e)%Q.
Proof. unfold pow2. rewrite Qpower_plus by done. rewrite Qpower_1_r. ring. Qed.

Lemma inject_Z_pos (z : Z) : 0 < z → (0 < inject_Z z)%Q.
Proof. intros. change 0%Q with (inject_Z 0). by rewrite <- Zlt_Qlt. Qed.

Lemma Qdiv_lt_cross (n D A B : Z) :
  0 < D → 0 < B → n * B < A * D →
  (inject_Z n / inject_Z D < inject_Z A / inject_Z B)%Q.
Proof.
  intros HD HB H.
  pose proof (inject_Z_pos _ HD). pose proof (inject_Z_pos _ HB).
  apply Qlt_shift_div_l; [done|].
  assert (inject_Z n / inject_Z D * inject_Z B
          == inject_Z (n * B) / inject_Z D)%Q as ->.
  { rewrite inject_Z_mult. field. lra. }
  apply Qlt_shift_div_r; [done|].
  by rewrite <- inject_Z_mult, <- Zlt_Qlt.
Qed.

Lemma Qdiv_le_cross (n D A B : Z) :
  0 < D → 0 < B → n * B ≤ A * D →
  (inject_Z n / inject_Z D <= inject_Z A / inject_Z B)%Q.
Proof.
  intros HD HB H.
  pose proof (inject_Z_pos _ HD). pose proof (inject_Z_pos _ HB).
  apply Qle_shift_div_l; [done|].
  assert (inject_Z n / inject_Z D * inject_Z B
          == inject_Z (n * B) / inject_Z D)%Q as ->.
  { rewrite inject_Z_mult. field. lra. }
  apply Qle_shift_div_r; [done|].
  by rewrite <- inject_Z_mult, <- Zle_Qle.
Qed.

(** ** Binary64 arithmetic: the exponent of a positive rational *)
Lemma ilog2_spec (q : Q) :
  (0 < q)%Q → (pow2 (ilog2 q) <= q)%Q ∧ (q < pow2 (ilog2 q + 1))%Q.
Proof.
  intros Hq. destruct q as [n d].
  assert (0 < n) as Hn by (unfold Qlt in Hq; simpl in Hq; lia).
  unfold ilog2. cbn [Qnum Qden]. cbv zeta.
  set (a := Z.log2 n). set (b := Z.log2 (Z.pos d)).
  destruct (Z.log2_spec n Hn) as [Ha1 Ha2]. fold a in Ha1, Ha2.
  destruct (Z.log2_spec (Z.pos d) eq_refl) as [Hb1 Hb2]. fold b in Hb1, Hb2.
  assert (0 ≤ a) as Ha0 by apply Z.log2_nonneg.
  assert (0 ≤ b) as Hb0 by apply Z.log2_nonneg.
  assert (0 < 2 ^ a) as HA by (by apply Z.pow_pos_nonneg).
  assert (0 < 2 ^ b) as HB by (by apply Z.pow_pos_nonneg).
  rewrite <- !Z.add_1_r in *.
  assert (n # d == inject_Z n / inject_Z (Z.pos d))%Q as Hnd by apply Qmake_Qdiv.
  assert (pow2 (a - b) == inject_Z (2 ^ a) / inject_Z (2 ^ b))%Q as Hab.
  { by rewrite pow2_sub, !pow2_nonneg. }
  assert (pow2 (a - b + 1) == inject_Z (2 ^ (a + 1)) / inject_Z (2 ^ b))%Q as Hab1.
  { replace (a - b + 1) with (a + 1 - b) by lia.
    rewrite pow2_sub, !pow2_nonneg by lia. reflexivity. }
  assert (pow2 (a - b - 1) == inject_Z (2 ^ a) / inject_Z (2 ^ (b + 1)))%Q as Hab2.
  { replace (a - b - 1) with (a - (b + 1)) by lia.
    rewrite pow2_sub, !pow2_nonneg by lia. reflexivity. }
  destruct (Qle_bool (pow2 (a - b)) (n # d)) eqn:E.
  - apply Qle_bool_iff in E. split; [done|].
    rewrite Hab1, Hnd. apply Qdiv_lt_cross; [done|done|nia].
  - assert (¬ (pow2 (a - b) <= n # d)%Q) as Hn'.
    { intros H%Qle_bool_iff. congruence. }
    apply Qnot_le_lt in Hn'.
    replace (a - b - 1 + 1) with (a - b) by lia. split; [|done].
    rewrite Hab2, Hnd. apply Qdiv_le_cross; [lia|done|nia].
Qed.

Lemma ilog2_unique (q : Q) (e : Z) :
  (pow2 e <= q)%Q → (q < pow2 (e + 1))%Q → ilog2 q = e.
Proof.
  intros Hlo Hhi.
  assert (0 < q)%Q as Hq by (pose proof (pow2_pos e); lra).
  destruct (ilog2_spec q Hq) as [Hlo' Hhi'].
  destruct (Z.lt_trichotomy (ilog2 q) e) as [Hlt|[Heq|Hgt]]; [|done|].
  - pose proof (pow2_le (ilog2 q + 1) e ltac:(lia)). lra.
  - pose proof (pow2_le (e + 1) (ilog2 q) ltac:(lia)). lra.
Qed.

Lemma ilog2_comp (p q : Q) : (0 < p)%Q → (p == q)%Q → ilog2 p = ilog2 q.
Proof.
  intros Hp Hpq. apply ilog2_unique; rewrite Hpq; apply ilog2_spec; lra.
Qed.

Lemma ilog2_mono (p q : Q) : (0 < p)%Q → (p <= q)%Q → ilog2 p ≤ ilog2 q.
Proof.
  intros Hp Hpq.
  destruct (ilog2_spec p Hp) as [Hp1 Hp2].
  destruct (ilog2_spec q) as [Hq1 Hq2]; [lra|].
  destruct (Z_le_gt_dec (ilog2 p) (ilog2 q)) as [|Hgt]; [done|].
  pose proof (pow2_le (ilog2 q + 1) (ilog2 p) ltac:(lia)). lra.
Qed.

(** ** Binary64 arithmetic: rounding to the nearest integer *)
Lemma rne_comp (p q : Q) : (p == q)%Q → rne p = rne q.
Proof.
  intros H. unfold rne. cbv zeta. rewrite (Qfloor_comp _ _ H).
  assert ((p - inject_Z (Qfloor q) ?= 1 # 2)
          = (q - inject_Z (Qfloor q) ?= 1 # 2))%Q as ->; [|done].
  apply Qcompare_comp; [by rewrite H|done].
Qed.

Lemma rne_integer (q : Q) (n : Z) : (q == inject_Z n)%Q → rne q = n.
Proof.
  intros H. unfold rne. cbv zeta.
  rewrite (Qfloor_comp _ _ H), Qfloor_Z.
  assert ((q - inject_Z n ?= 1 # 2)%Q = Lt) as ->; [|done].
  apply (proj1 (Qlt_alt _ _)). rewrite H. lra.
Qed.

Lemma rne_bounds (q : Q) : Qfloor q ≤ rne q ≤ Qfloor q + 1.
Proof.
  unfold rne. cbv zeta.
  destruct (q - inject_Z (Qfloor q) ?= 1 # 2)%Q; [|lia|lia].
  destruct (Z.even (Qfloor q)); lia.
Qed.

Lemma rne_mono (p q : Q) : (p <= q)%Q → rne p ≤ rne q.
Proof.
  intros Hpq. pose proof (Qfloor_resp_le _ _ Hpq) as Hf.
  pose proof (rne_bounds p). pose proof (rne_bounds q).
  destruct (decide (Qfloor p = Qfloor q)) as [Heq|Hne]; [|lia].
  unfold rne. cbv zeta. rewrite Heq.
  destruct (Qcompare_spec (p - inject_Z (Qfloor q)) (1 # 2)) as [Hp|Hp|Hp];
    destruct (Qcompare_spec (q - inject_Z (Qfloor q)) (1 # 2)) as [Hq|Hq|Hq];
    try destruct (Z.even (Qfloor q)); try lia; lra.
Qed.

(** ** Binary64 arithmetic: rounding to the nearest double *)
Lemma pow2_grid (k u : Z) :
  u ≤ k → (pow2 k == inject_Z (2 ^ (k - u)) * pow2 u)%Q.
Proof.
  intros Hku. rewrite <- pow2_nonneg by lia. rewrite pow2_sub.
  pose proof (pow2_pos u). field. lra.
Qed.

Lemma nearest_ge_grid (q g : Q) (n : Z) :
  (g == inject_Z n * pow2 (quantum q))%Q → (g <= q)%Q → (g <= nearest q)%Q.
Proof.
  intros Hg Hle. unfold nearest. pose proof (pow2_pos (quantum q)) as Hu.
  rewrite Hg. apply Qmult_le_compat_r; [|lra].
  rewrite <- Zle_Qle. apply Z.le_trans with (rne (inject_Z n)).
  { by rewrite (rne_integer _ n). }
  apply rne_mono. apply Qle_shift_div_l; [done|]. by rewrite <- Hg.
Qed.

Lemma nearest_le_grid (q g : Q) (n : Z) :
  (g == inject_Z n * pow2 (quantum q))%Q → (q <= g)%Q → (nearest q <= g)%Q.
Proof.
  intros Hg Hle. unfold nearest. pose proof (pow2_pos (quantum q)) as Hu.
  rewrite Hg. apply Qmult_le_compat_r; [|lra].
  rewrite <- Zle_Qle. apply Z.le_trans with (rne (inject_Z n)).
  2: { by rewrite (rne_integer _ n). }
  apply rne_mono. apply Qle_shift_div_r; [done|]. by rewrite <- Hg.
Qed.

Lemma nearest_nonneg (q : Q) : (0 <= q)%Q → (0 <= nearest q)%Q.
Proof. apply (nearest_ge_grid q 0 0). ring. Qed.

Lemma nearest_nonpos (q : Q) : (q <= 0)%Q → (nearest q <= 0)%Q.
Proof. apply (nearest_le_grid q 0 0). ring. Qed.

Lemma quantum_pos (q : Q) :
  (0 < q)%Q → quantum q = Z.max (ilog2 q - 52) (-1074).
Proof.
  intros Hq. unfold quantum. f_equal. f_equal.
  symmetry. apply ilog2_comp; [done|]. symmetry. apply Qabs_pos. lra.
Qed.

Lemma quantum_neg (q : Q) :
  (q < 0)%Q → quantum q = Z.max (ilog2 (- q) - 52) (-1074).
Proof.
  intros Hq. unfold quantum. f_equal. f_equal.
  symmetry. apply ilog2_comp; [lra|]. symmetry. apply Qabs_neg. lra.
Qed.

Lemma nearest_mono_pos (p q : Q) :
  (0 < p)%Q → (p <= q)%Q → (nearest p <= nearest q)%Q.
Proof.
  intros Hp Hpq. assert (0 < q)%Q as Hq by lra.
  pose proof (ilog2_mono p q Hp Hpq) as He.
  destruct (ilog2_spec p Hp) as [Hp1 Hp2].
  destruct (ilog2_spec q Hq) as [Hq1 Hq2].
  pose proof (quantum_pos p Hp) as Hup. pose proof (quantum_pos q Hq) as Huq.
  destruct (decide (quantum p = quantum q)) as [Heq|Hne].
  - unfold nearest. rewrite Heq. pose proof (pow2_pos (quantum q)).
    apply Qmult_le_compat_r; [|lra]. rewrite <- Zle_Qle. apply rne_mono.
    apply Qmult_le_compat_r; [done|]. apply Qlt_le_weak, Qinv_lt_0_compat. done.
  - apply Qle_trans with (pow2 (ilog2 q)).
    + apply (nearest_le_grid p _ (2 ^ (ilog2 q - quantum p))).
      * apply pow2_grid. lia.
      * pose proof (pow2_le (ilog2 p + 1) (ilog2 q) ltac:(lia)). lra.
    + apply (nearest_ge_grid q _ (2 ^ (ilog2 q - quantum q))); [|done].
      apply pow2_grid. lia.
Qed.

Lemma nearest_mono_neg (p q : Q) :
  (q < 0)%Q → (p <= q)%Q → (nearest p <= nearest q)%Q.
Proof.
  intros Hq Hpq. assert (p < 0)%Q as Hp by lra.
  pose proof (ilog2_mono (- q) (- p) ltac:(lra) ltac:(lra)) as He.
  destruct (ilog2_spec (- p) ltac:(lra)) as [Hp1 Hp2].
  destruct (ilog2_spec (- q) ltac:(lra)) as [Hq1 Hq2].
  pose proof (quantum_neg p Hp) as Hup. pose proof (quantum_neg q Hq) as Huq.
  destruct (decide (quantum p = quantum q)) as [Heq|Hne].
  - unfold nearest. rewrite Heq. pose proof (pow2_pos (quantum q)).
    apply Qmult_le_compat_r; [|lra]. rewrite <- Zle_Qle. apply rne_mono.
    apply Qmult_le_compat_r; [done|]. apply Qlt_le_weak, Qinv_lt_0_compat. done.
  - apply Qle_trans with (- pow2 (ilog2 (- p)))%Q.
    + apply (nearest_le_grid p _ (- 2 ^ (ilog2 (- p) - quantum p))); [|lra].
      rewrite inject_Z_opp. rewrite (pow2_grid (ilog2 (- p)) (quantum p)) by lia.
      ring.
    + apply (nearest_ge_grid q _ (- 2 ^ (ilog2 (- p) - quantum q))).
      * rewrite inject_Z_opp.
        rewrite (pow2_grid (ilog2 (- p)) (quantum q)) by lia. ring.
      * pose proof (pow2_le (ilog2 (- q) + 1) (ilog2 (- p)) ltac:(lia)). lra.
Qed.

Lemma nearest_mono (p q : Q) : (p <= q)%Q → (nearest p <= nearest q)%Q.
Proof.
  intros Hpq.
  destruct (Qlt_le_dec 0 p) as [Hp|Hp]; [by apply nearest_mono_pos|].
  destruct (Qlt_le_dec q 0) as [Hq|Hq]; [by apply nearest_mono_neg|].
  apply Qle_trans with 0%Q; [by apply nearest_nonpos|by apply nearest_nonneg].
Qed.

Ltac Qle_bool_hyps :=
  repeat match goal with
  | H : Qle_bool _ _ = true |- _ => apply Qle_bool_iff in H
  | H : Qle_bool ?a ?b = false |- _ =>
      assert (b < a)%Q by
        (apply Qnot_le_lt; intros ?%Qle_bool_iff; congruence);
      clear H
  end.

Ltac Qle_bool_split :=
  repeat (cbn [js_le];
          match goal with
          | |- context [Qle_bool ?x ?y] => destruct (Qle_bool x y) eqn:?
          end);
  cbn [js_le]; try done; Qle_bool_hyps; exfalso; lra.

Lemma round64_comp (p q : Q) : (p == q)%Q → round64 p = round64 q.
Proof. intros H. unfold round64. by rewrite (Qred_complete _ _ H). Qed.

Lemma round64_mono (p q : Q) :
  (p <= q)%Q → js_le (round64 p) (round64 q) = true.
Proof.
  intros Hpq. unfold round64. cbv zeta.
  assert (Qred (nearest (Qred p)) <= Qred (nearest (Qred q)))%Q as Hv.
  { apply Qred_le, nearest_mono, Qred_le. done. }
  set (vp := Qred (nearest (Qred p))) in *.
  set (vq := Qred (nearest (Qred q))) in *.
  pose proof (pow2_pos 1024) as Hbig.
  destruct (Qle_bool (pow2 1024) (Qabs vp)) eqn:Ep;
    destruct (Qle_bool (pow2 1024) (Qabs vq)) eqn:Eq;
    destruct (Qle_bool 0 vp) eqn:Sp; destruct (Qle_bool 0 vq) eqn:Sq;
    try reflexivity; simpl; Qle_bool_hyps;
    try (apply Qle_bool_iff; done);
    exfalso;
    repeat match goal with
    | H : context [Qabs ?v] |- _ =>
        revert H; apply (Qabs_case v); intros ? H
    end; lra.
Qed.

Lemma round64_cases (x : Q) :
  (∃ v, round64 x = Num v) ∨ round64 x = PosInfinity ∨ round64 x = NegInfinity.
Proof.
  unfold round64. cbv zeta.
  destruct (Qle_bool _ _); [|by eauto].
  destruct (Qle_bool _ _); auto.
Qed.

Lemma js_le_Num (p q : Q) : js_le (Num p) (Num q) = true ↔ (p <= q)%Q.
Proof. apply Qle_bool_iff. Qed.

Lemma round64_le_PosInfinity (x : Q) : js_le (round64 x) PosInfinity = true.
Proof. by destruct (round64_cases x) as [[v ->]|[->| ->]]. Qed.

Lemma NegInfinity_le_round64 (x : Q) : js_le NegInfinity (round64 x) = true.
Proof. by destruct (round64_cases x) as [[v ->]|[->| ->]]. Qed.

(** A rational that lies on the grid of the doubles around it, and below
    [2^1024], is a double: rounding returns it. *)
Lemma round64_grid (x : Q) (n : Z) :
  (x == inject_Z n * pow2 (quantum (Qred x)))%Q →
  (Qabs x < pow2 1024)%Q →
  round64 x = Num (Qred x).
Proof.
  intros Hg Hx. unfold round64. cbv zeta.
  assert (nearest (Qred x) == Qred x)%Q as Hn.
  { rewrite <- (Qred_correct x) in Hg at 1. apply Qle_antisym.
    - apply (nearest_le_grid _ _ n); [done|apply Qle_refl].
    - apply (nearest_ge_grid _ _ n); [done|apply Qle_refl]. }
  rewrite (Qred_complete _ _ Hn).
  assert (Qred (Qred x) = Qred x) as -> by apply Qred_complete, Qred_correct.
  destruct (Qle_bool (pow2 1024) (Qabs (Qred x))) eqn:E; [|done].
  apply Qle_bool_iff in E. rewrite (Qabs_wd _ _ (Qred_correct x)) in E. lra.
Qed.

Lemma Qred_inject_Z (q : Q) (z : Z) : (q == inject_Z z)%Q → Qred q = inject_Z z.
Proof.
  intros H. rewrite (Qred_complete _ _ H). unfold Qred, inject_Z.
  pose proof (Z.ggcd_gcd z 1) as Hg.
  pose proof (Z.ggcd_correct_divisors z 1) as Hd.
  destruct (Z.ggcd z 1) as [g [a b]]. simpl in *.
  rewrite Z.gcd_1_r in Hg. subst g. destruct Hd as [Ha Hb].
  rewrite Z.mul_1_l in Ha, Hb. by subst.
Qed.

Lemma Qabs_inject_Z (z : Z) : Qabs (inject_Z z) = inject_Z (Z.abs z).
Proof. reflexivity. Qed.

(** The exponent of [m * 2^j]. *)
Lemma ilog2_dyadic (x : Q) (m j : Z) :
  0 < m → (x == inject_Z m * pow2 j)%Q → ilog2 x = Z.log2 m + j.
Proof.
  intros Hm Hx. destruct (Z.log2_spec m Hm) as [H1 H2].
  rewrite <- Z.add_1_r in H2.
  pose proof (Z.log2_nonneg m) as H0. pose proof (pow2_pos j) as Hj.
  apply ilog2_unique; rewrite Hx.
  - rewrite (pow2_grid (Z.log2 m + j) j) by lia.
    replace (Z.log2 m + j - j) with (Z.log2 m) by lia.
    apply Qmult_le_compat_r; [by rewrite <- Zle_Qle|lra].
  - rewrite (pow2_grid (Z.log2 m + j + 1) j) by lia.
    replace (Z.log2 m + j + 1 - j) with (Z.log2 m + 1) by lia.
    apply Qmult_lt_compat_r; [done|by rewrite <- Zlt_Qlt].
Qed.

(** [m * 2^j] is a double when [|m| < 2^53] and [-1074 <= j <= 970]. *)
Lemma round64_dyadic (x : Q) (m j : Z) :
  (x == inject_Z m * pow2 j)%Q → Z.abs m < 2 ^ 53 → -1074 ≤ j ≤ 970 →
  round64 x = Num (Qred x).
Proof.
  intros Hx Hm Hj. pose proof (pow2_pos j) as Hjpos.
  assert (Qabs x == inject_Z (Z.abs m) * pow2 j)%Q as Habs.
  { rewrite (Qabs_wd _ _ Hx), Qabs_Qmult, Qabs_inject_Z.
    by rewrite (Qabs_pos (pow2 j)) by lra. }
  assert (Qabs x < pow2 1024)%Q as Hsmall.
  { rewrite Habs. apply Qlt_le_trans with (inject_Z (2 ^ 53) * pow2 j)%Q.
    - apply Qmult_lt_compat_r; [done|by rewrite <- Zlt_Qlt].
    - rewrite (pow2_grid 1024 j) by lia.
      apply Qmult_le_compat_r; [|lra]. rewrite <- Zle_Qle.
      apply Z.pow_le_mono_r; lia. }
  destruct (decide (m = 0)) as [->|Hne].
  - apply (round64_grid x 0); [|done]. apply (Qeq_trans _ _ _ Hx). ring.
  - set (u := quantum (Qred x)).
    assert (u ≤ j) as Hu.
    { unfold u, quantum.
      rewrite (ilog2_dyadic (Qabs (Qred x)) (Z.abs m) j); [|lia|].
      - assert (Z.log2 (Z.abs m) < 53) by (apply Z.log2_lt_pow2; lia). lia.
      - by rewrite (Qabs_wd _ _ (Qred_correct x)). }
    apply (round64_grid x (m * 2 ^ (j - u))); [|done].
    fold u. apply (Qeq_trans _ _ _ Hx).
    rewrite inject_Z_mult, (pow2_grid j u) by done. ring.
Qed.

(** An integer below [2^53] in absolute value is a double. *)
Lemma round64_integer (q : Q) (z : Z) :
  (q == inject_Z z)%Q → Z.abs z < 2 ^ 53 → round64 q = Num (inject_Z z).
Proof.
  intros Hq Hz. rewrite (round64_dyadic q z 0); [| |done|lia].
  - by rewrite (Qred_inject_Z q z).
  - rewrite Hq. unfold pow2. rewrite Qpower_0_r. ring.
Qed.

(** [round64] against Rocq's primitive binary64 floats: quotients that are
    not doubles, a product of two of them, both kinds of tie, a subnormal
    result, the smallest subnormal halved, and overflow. *)
Example round64_on_primitive_floats :
  div64 (Num 1) (Num 3) = float_value (1 / 3)%float
  ∧ div64 (Num 1) (Num 10) = float_value (1 / 10)%float
  ∧ mul64 (float_value (1 / 3)%float) (float_value (1 / 10)%float)
    = float_value (1 / 3 * (1 / 10))%float
  ∧ add64 (float_value (1 / 10)%float) (float_value (1 / 5)%float)
    = float_value (1 / 10 + 1 / 5)%float
  ∧ add64 (Num 9007199254740992) (Num 1)
    = float_value (9007199254740992 + 1)%float
  ∧ add64 (Num 9007199254740994) (Num 1)
    = float_value (9007199254740994 + 1)%float
  ∧ div64 (float_value 0x1p-1070%float) (Num 3)
    = float_value (0x1p-1070 / 3)%float
  ∧ div64 (float_value 0x1p-1074%float) (Num 2)
    = float_value (0x1p-1074 / 2)%float
  ∧ mul64 (float_value 0x1p1023%float) (Num 2)
    = float_value (0x1p1023 * 2)%float
  ∧ sub64 (float_value (- 0x1.fffffffffffffp1023)%float)
          (float_value 0x1p970%float)
    = float_value (- 0x1.fffffffffffffp1023 - 0x1p970)%float.
Proof. repeat split; by vm_compute. Qed.

(** *** The operations are monotone *)

Lemma add64_Num (p q : Q) : add64 (Num p) (Num q) = round64 (p + q).
Proof. reflexivity. Qed.

Lemma sub64_Num (p q : Q) : sub64 (Num p) (Num q) = round64 (p + - q).
Proof. reflexivity. Qed.

Lemma mul64_Num (p q : Q) : mul64 (Num p) (Num q) = round64 (p * q).
Proof. reflexivity. Qed.

Lemma add64_mono_l (a b : number) (c : Q) :
  js_le a b = true → js_le (add64 a (Num c)) (add64 b (Num c)) = true.
Proof.
  destruct a as [p| | |], b as [q| | |]; simpl; try done.
  - intros H%Qle_bool_iff. apply round64_mono. lra.
  - intros _. apply round64_le_PosInfinity.
  - intros _. apply NegInfinity_le_round64.
Qed.

Lemma add64_mono_r (c : Q) (a b : number) :
  js_le a b = true → js_le (add64 (Num c) a) (add64 (Num c) b) = true.
Proof.
  destruct a as [p| | |], b as [q| | |]; simpl; try done.
  - intros H%Qle_bool_iff. apply round64_mono. lra.
  - intros _. apply round64_le_PosInfinity.
  - intros _. apply NegInfinity_le_round64.
Qed.

Lemma sub64_mono_l (a b : number) (c : Q) :
  js_le a b = true → js_le (sub64 a (Num c)) (sub64 b (Num c)) = true.
Proof. apply add64_mono_l. Qed.

Lemma mul64_mono_l (a b : number) (c : Q) :
  (0 < c)%Q →
  js_le a b = true → js_le (mul64 a (Num c)) (mul64 b (Num c)) = true.
Proof.
  intros Hc.
  assert ((c ?= 0)%Q = Gt) as Hc' by (by apply Qgt_alt).
  destruct a as [p| | |], b as [q| | |]; try done;
    cbn [mul64]; unfold scaled_infinity; rewrite ?Hc'; try done.
  - intros H%Qle_bool_iff. apply round64_mono.
    apply Qmult_le_compat_r; [done|lra].
  - intros _. apply round64_le_PosInfinity.
  - intros _. apply NegInfinity_le_round64.
Qed.

Lemma div64_positive (p c : Q) :
  (0 < c)%Q → div64 (Num p) (Num c) = round64 (p / c).
Proof. intros Hc. simpl. rewrite js_div_nonzero; [done|lra]. Qed.

Lemma div64_mono_l (a b : number) (c : Q) :
  (0 < c)%Q →
  js_le a b = true → js_le (div64 a (Num c)) (div64 b (Num c)) = true.
Proof.
  intros Hc.
  assert (Qle_bool 0 c = true) as Hc' by (apply Qle_bool_iff; lra).
  destruct a as [p| | |], b as [q| | |]; try done;
    rewrite ?div64_positive by done; cbn [div64]; rewrite ?Hc'; try done.
  - intros H%Qle_bool_iff. apply round64_mono.
    apply Qmult_le_compat_r; [done|]. by apply Qlt_le_weak, Qinv_lt_0_compat.
  - intros _. apply round64_le_PosInfinity.
  - intros _. apply NegInfinity_le_round64.
Qed.

Lemma Math_round_mono (a b : number) :
  js_le a b = true → js_le (Math_round a) (Math_round b) = true.
Proof.
  destruct a as [p| | |], b as [q| | |]; cbn [Math_round js_le]; try done.
  intros H%Qle_bool_iff. apply Qle_bool_iff. rewrite <- Zle_Qle.
  apply Qfloor_resp_le. lra.
Qed.

Lemma Math_max_mono (a b : number) (c : Q) :
  js_le a b = true → js_le (Math_max a (Num c)) (Math_max b (Num c)) = true.
Proof.
  destruct a as [p| | |], b as [q| | |]; simpl; try done;
    intros H; try apply Qle_bool_iff in H; Qle_bool_split.
Qed.

Lemma Math_min_mono (a b : number) (c : Q) :
  js_le a b = true → js_le (Math_min a (Num c)) (Math_min b (Num c)) = true.
Proof.
  destruct a as [p| | |], b as [q| | |]; simpl; try done;
    intros H; try apply Qle_bool_iff in H; Qle_bool_split.
Qed.

Lemma scrollOffsetToYear64_mono (a b : number) (timeRange : TimePeriod)
    (config : TimelineConfig) :
  (0 < PIXELS_PER_YEAR config)%Q →
  js_le a b = true →
  js_le (scrollOffsetToYear64 a timeRange config)
        (scrollOffsetToYear64 b timeRange config) = true.
Proof.
  intros Hp Hab. unfold scrollOffsetToYear64. cbv zeta.
  apply Math_round_mono, add64_mono_r, div64_mono_l; [done|].
  by apply sub64_mono_l.
Qed.

(** ** Claims about the axis mapper and the viewport tracker *)

(** In exact arithmetic, with a pixels-per-year that is a strictly positive
    integer, converting a year to a scroll offset and back returns the
    year. *)
Lemma scrollOffsetToYear_yearToScrollOffset
    (y : Z) (timeRange : TimePeriod) (config : TimelineConfig) (n : Z) :
  0 < n →
  (PIXELS_PER_YEAR config == inject_Z n)%Q →
  scrollOffsetToYear (yearToScrollOffset y timeRange config) timeRange config
  = year y.
Proof.
  intros Hn Hp.
  assert (0 < PIXELS_PER_YEAR config)%Q as Hpos.
  { rewrite Hp. change 0%Q with (inject_Z 0). by rewrite <- Zlt_Qlt. }
  rewrite scrollOffsetToYear_nonzero by lra.
  unfold year, roundedYear, yearToScrollOffset. cbv zeta. do 2 f_equal.
  rewrite <- (round_integer y) at 2.
  apply Qfloor_comp.
  unfold Z.sub. rewrite inject_Z_plus, inject_Z_opp. field. lra.
Qed.

(** C6, as stated, fails in the arithmetic of the program.  With 3 pixels
    per year and the time range starting in 1400, the year 2^52 + 1 is
    4503599627369097 years after the start; three times that is odd and
    above 2^53, so the product is rounded to an even number, and then the
    division by 3 and the addition of 1400 are rounded too: the round trip
    returns 2^52 + 2.  The second case keeps the default 2 pixels per year
    and takes a padding of 10^17, next to which the two pixels of the year
    1401 are lost. *)
Lemma round_trip_misses_the_year :
  (0 < PIXELS_PER_YEAR (mkConfig 3 100 60 10))%Q
  ∧ scrollOffsetToYear64
      (yearToScrollOffset64 (year 4503599627370497) mockTimeRange (mkConfig 3 100 60 10))
      mockTimeRange (mkConfig 3 100 60 10)
    = year 4503599627370498
  ∧ year 4503599627370498 ≠ year 4503599627370497
  ∧ scrollOffsetToYear64
      (yearToScrollOffset64 (year 1401) mockTimeRange
         (mkConfig 2 100000000000000000 60 10))
      mockTimeRange (mkConfig 2 100000000000000000 60 10)
    = year 1400.
Proof.
  split; [reflexivity|]. split; [by vm_compute|].
  split; [discriminate|by vm_compute].
Qed.

(** The argument of [Math.round] in these two computations, on Rocq's
    primitive binary64 floats and as defined here. *)
Example round_trip_on_primitive_floats :
  float_value (1400 + (100 + (4503599627370497 - 1400) * 3 - 100) / 3)%float
  = Num 4503599627370498
  ∧ add64 (year 1400)
      (div64 (sub64 (yearToScrollOffset64 (year 4503599627370497) mockTimeRange
                       (mkConfig 3 100 60 10))
                    (Num 100))
             (Num 3))
    = Num 4503599627370498
  ∧ float_value (1400 + (100000000000000000 + (1401 - 1400) * 2
                         - 100000000000000000) / 2)%float
    = Num 1400
  ∧ add64 (year 1400)
      (div64 (sub64 (yearToScrollOffset64 (year 1401) mockTimeRange
                       (mkConfig 2 100000000000000000 60 10))
                    (Num 100000000000000000))
             (Num 2))
    = Num 1400.
Proof. repeat split; by vm_compute. Qed.

(** C6, amended: when the year, the start of the time range, the padding
    and the pixels per year are integers, the pixels per year are strictly
    positive, and the year, the start and [|padding| + |year - start| *
    pixelsPerYear] stay below 2^53, every intermediate result is an integer
    that is a double, and converting the year to a scroll offset and back
    returns the year. *)
Theorem scrollOffsetToYear64_yearToScrollOffset64
    (y p pad : Z) (timeRange : TimePeriod) (config : TimelineConfig) :
  0 < p →
  (PIXELS_PER_YEAR config == inject_Z p)%Q →
  (TIMELINE_PADDING config == inject_Z pad)%Q →
  Z.abs y < 2 ^ 53 →
  Z.abs (start timeRange) < 2 ^ 53 →
  Z.abs pad + Z.abs (y - start timeRange) * p < 2 ^ 53 →
  scrollOffsetToYear64 (yearToScrollOffset64 (year y) timeRange config)
    timeRange config
  = year y.
Proof.
  intros Hp Hppy Hpad Hy Hs Hsum.
  set (d := y - start timeRange) in *.
  assert (0 < PIXELS_PER_YEAR config)%Q as Hpos.
  { rewrite Hppy. by apply inject_Z_pos. }
  unfold scrollOffsetToYear64, yearToScrollOffset64, year. cbv zeta.
  rewrite sub64_Num, (round64_integer _ d); cycle 1.
  { unfold d, Z.sub. rewrite inject_Z_plus, inject_Z_opp. reflexivity. }
  { nia. }
  rewrite mul64_Num, (round64_integer _ (d * p)); cycle 1.
  { by rewrite Hppy, inject_Z_mult. }
  { nia. }
  rewrite add64_Num, (round64_integer _ (pad + d * p)); cycle 1.
  { by rewrite Hpad, inject_Z_plus. }
  { lia. }
  rewrite sub64_Num, (round64_integer _ (d * p)); cycle 1.
  { rewrite Hpad, inject_Z_plus. ring. }
  { nia. }
  rewrite div64_positive by done.
  rewrite (round64_integer _ d); cycle 1.
  { rewrite Hppy, inject_Z_mult. field.
    intros H0. rewrite H0 in Hppy. lra. }
  { nia. }
  rewrite add64_Num, (round64_integer _ y); cycle 1.
  { unfold d, Z.sub. rewrite inject_Z_plus, inject_Z_opp. ring. }
  { done. }
  cbn [Math_round]. by rewrite round_integer.
Qed.

Lemma scrollOffsetToYear64_yearToScrollOffset64_witness :
  scrollOffsetToYear64
    (yearToScrollOffset64 (year 1450) mockTimeRange TIMELINE_CONFIG)
    mockTimeRange TIMELINE_CONFIG
  = year 1450.
Proof.
  apply (scrollOffsetToYear64_yearToScrollOffset64 1450 2 100
           mockTimeRange TIMELINE_CONFIG); reflexivity.
Defined.






(** C10: a period whose end is 0 is shown as its start alone by
    [formatYearRange] and by the time indicator's [formatRange], exactly as
    a period without end, and the visible-range clamp uses the start of the
    time range in place of an end of 0. *)
Theorem end_zero_is_absent (s : Z) :
  formatYearRange (mkPeriod s (Some 0)) = toString s
  ∧ formatYearRange (mkPeriod s (Some 0)) = formatYearRange (mkPeriod s None)
  ∧ formatRange (mkPeriod s (Some 0)) = toString s
  ∧ formatRange (mkPeriod s (Some 0)) = formatRange (mkPeriod s None)
  ∧ end_or_start (mkPeriod s (Some 0)) = s
  ∧ ∀ screenHeight config offset,
      range_end (updateVisibleRange screenHeight (mkPeriod s (Some 0)) config offset)
      = Math_min
          (scrollOffsetToYear (offset + (screenHeight - 200))%Q
             (mkPeriod s (Some 0)) config)
          (year s).
Proof. repeat split. Qed.

(** ** Overlap resolver: the pieces *)

Lemma movementsOverlap_sym (a b : Movement) :
  movementsOverlap a b = movementsOverlap b a.
Proof. unfold movementsOverlap. cbv zeta. by rewrite orb_comm. Qed.

Lemma indexOf_Some (l : list loc) (x : loc) (i : nat) :
  indexOf l x = Some i →
  l !! i = Some x ∧ ∀ j, (j < i)%nat → l !! j ≠ Some x.
Proof.
  revert i. induction l as [|y l IH]; intros i; simpl; [done|].
  destruct (decide (y = x)) as [->|Hne].
  - intros [= <-]. split; [done|]. lia.
  - destruct (indexOf l x) as [i'|] eqn:E; simpl; [|done].
    intros [= <-]. destruct (IH i' eq_refl) as [Hi Hj]. split; [done|].
    intros [|j] Hlt; simpl; [congruence|]. apply Hj. lia.
Qed.

Lemma indexOf_lt (l : list loc) (x : loc) (i : nat) :
  indexOf l x = Some i → (i < length l)%nat.
Proof. intros H. apply indexOf_Some in H as [H _]. by eapply lookup_lt_Some. Qed.

Lemma indexOf_elem (l : list loc) (x : loc) :
  x ∈ l → ∃ i, indexOf l x = Some i.
Proof.
  induction l as [|y l IH]; simpl; [by intros ?%elem_of_nil|].
  intros Hin. destruct (decide (y = x)); [by eexists|].
  apply elem_of_cons in Hin as [->|Hin]; [done|].
  destruct (IH Hin) as [i ->]. by eexists.
Qed.

Lemma indexOf_first (l : list loc) (x : loc) (i : nat) :
  l !! i = Some x → (∀ j, (j < i)%nat → l !! j ≠ Some x) → indexOf l x = Some i.
Proof.
  intros Hi Hj.
  destruct (indexOf_elem l x) as [i' Hi'].
  { apply list_elem_of_lookup. eauto. }
  destruct (indexOf_Some _ _ _ Hi') as [Hl Hfirst].
  destruct (Nat.lt_trichotomy i i') as [Hlt | [-> | Hlt]]; [|done|].
  - by destruct (Hfirst i Hlt).
  - by destruct (Hj i' Hlt).
Qed.

Lemma indexOf_NoDup (l : list loc) (x : loc) (i : nat) :
  NoDup l → l !! i = Some x → indexOf l x = Some i.
Proof.
  intros Hnd Hi. apply indexOf_first; [done|].
  intros j Hlt Hj. pose proof (NoDup_lookup _ _ _ _ Hnd Hi Hj). lia.
Qed.

Lemma sum_list_Permutation (l1 l2 : list nat) :
  l1 ≡ₚ l2 → sum_list l1 = sum_list l2.
Proof. induction 1; simpl; lia. Qed.

Lemma weight_delete f (cols : gmap Z (list entry)) c col :
  cols !! c = Some col → weight f cols = (f col + weight f (delete c cols))%nat.
Proof.
  intros Hc. unfold weight.
  rewrite (sum_list_Permutation _ ((λ kv, f kv.2) <$> ((c, col) :: map_to_list (delete c cols)))).
  - done.
  - apply fmap_Permutation. symmetry. by apply map_to_list_delete.
Qed.

Lemma weight_insert f (cols : gmap Z (list entry)) c col :
  weight f (<[c := col]> cols) = (f col + weight f (delete c cols))%nat.
Proof.
  rewrite (weight_delete f (<[c := col]> cols) c col) by apply lookup_insert_eq.
  by rewrite delete_insert_eq.
Qed.

Lemma weight_mono f g (cols : gmap Z (list entry)) :
  (∀ col, (f col ≤ g col)%nat) → (weight f cols ≤ weight g cols)%nat.
Proof.
  intros Hfg. unfold weight.
  induction (map_to_list cols) as [|kv l IH]; [done|].
  rewrite !fmap_cons. simpl. specialize (Hfg kv.2). lia.
Qed.

Lemma column_insert_eq c col (cols : gmap Z (list entry)) :
  column c (<[c := col]> cols) = col.
Proof. unfold column. by rewrite lookup_insert_eq. Qed.

Lemma column_insert_ne c c' col (cols : gmap Z (list entry)) :
  c ≠ c' → column c' (<[c := col]> cols) = column c' cols.
Proof. intros. unfold column. by rewrite lookup_insert_ne. Qed.

Lemma column_ensure c c' (cols : gmap Z (list entry)) :
  column c' (ensure c cols) = column c' cols.
Proof.
  unfold ensure. destruct (cols !! c) eqn:E; [done|].
  destruct (decide (c = c')) as [<-|Hne].
  - rewrite column_insert_eq. unfold column. by rewrite E.
  - by apply column_insert_ne.
Qed.

Lemma ensure_occupied c (cols : gmap Z (list entry)) :
  column c cols ≠ [] → ensure c cols = cols.
Proof. unfold ensure, column. by destruct (cols !! c). Qed.

Lemma push_ensure c e (cols : gmap Z (list entry)) :
  push c e (ensure c cols) = push c e cols.
Proof.
  unfold push. rewrite column_ensure. unfold ensure.
  destruct (cols !! c); [done|]. by rewrite insert_insert_eq.
Qed.

Lemma column_push c c' e (cols : gmap Z (list entry)) :
  column c' (push c e cols)
  = if decide (c = c') then column c cols ++ [e] else column c' cols.
Proof.
  unfold push. case_decide as Hc.
  - subst. apply column_insert_eq.
  - by apply column_insert_ne.
Qed.

Lemma occupants_push c e (cols : gmap Z (list entry)) :
  occupants (push c e cols) = S (occupants cols).
Proof.
  unfold occupants, push. rewrite weight_insert, length_app. simpl.
  unfold column. destruct (cols !! c) as [col|] eqn:E; simpl.
  - rewrite (weight_delete length cols c col E). lia.
  - by rewrite delete_id.
Qed.

(** ** The probe sequence *)

Lemma half_double (m : nat) : ((2 * m) / 2 = m)%nat.
Proof.
  pose proof (Nat.div_mod_eq (2 * m) 2).
  pose proof (Nat.mod_upper_bound (2 * m) 2). lia.
Qed.

Lemma half_double_succ (m : nat) : ((2 * m + 1) / 2 = m)%nat.
Proof.
  pose proof (Nat.div_mod_eq (2 * m + 1) 2).
  pose proof (Nat.mod_upper_bound (2 * m + 1) 2). lia.
Qed.

Lemma even_double (m : nat) : Nat.even (2 * m) = true.
Proof. apply Nat.even_spec. by exists m. Qed.

Lemma even_double_succ (m : nat) : Nat.even (2 * m + 1) = false.
Proof.
  rewrite <- Nat.negb_odd. apply negb_false_iff, Nat.odd_spec. by exists m.
Qed.

Lemma probeColumn_left (m : nat) : probeColumn (2 * m) = - (Z.of_nat m + 1).
Proof. unfold probeColumn. by rewrite even_double, half_double. Qed.

Lemma probeColumn_right (m : nat) : probeColumn (2 * m + 1) = Z.of_nat m + 1.
Proof. unfold probeColumn. by rewrite even_double_succ, half_double_succ. Qed.

Lemma parity_cases (n : nat) : ∃ m, n = (2 * m)%nat ∨ n = (2 * m + 1)%nat.
Proof. destruct (Nat.Even_or_Odd n) as [[m ->]|[m ->]]; eauto. Qed.

Lemma probeColumn_inj (n1 n2 : nat) : probeColumn n1 = probeColumn n2 → n1 = n2.
Proof.
  destruct (parity_cases n1) as [m1 [-> | ->]],
           (parity_cases n2) as [m2 [-> | ->]];
    rewrite ?probeColumn_left, ?probeColumn_right; lia.
Qed.

Lemma probeColumn_nonzero (n : nat) : probeColumn n ≠ 0.
Proof.
  destruct (parity_cases n) as [m [-> | ->]];
    rewrite ?probeColumn_left, ?probeColumn_right; lia.
Qed.

Lemma probeColumn_distance (n : nat) : Z.abs (probeColumn n) = Z.of_nat (n / 2) + 1.
Proof. unfold probeColumn. destruct (Nat.even n); lia. Qed.

(** The loop state after a failed iteration [n] is the state of iteration
    [n + 1]. *)
Lemma loop_state_left (n : nat) :
  Nat.even n = true →
  Nat.even (S n) = false ∧ (S n / 2 = n / 2)%nat.
Proof.
  destruct (parity_cases n) as [m [-> | ->]].
  - intros _. replace (S (2 * m)) with (2 * m + 1)%nat by lia.
    by rewrite even_double_succ, half_double_succ, half_double.
  - by rewrite even_double_succ.
Qed.

Lemma loop_state_right (n : nat) :
  Nat.even n = false →
  Nat.even (S n) = true ∧ Z.of_nat (S n / 2) + 1 = Z.of_nat (n / 2) + 1 + 1.
Proof.
  destruct (parity_cases n) as [m [-> | ->]].
  - by rewrite even_double.
  - intros _. replace (S (2 * m + 1)) with (2 * (S m))%nat by lia.
    rewrite even_double, half_double, half_double_succ. split; [done|lia].
Qed.

Lemma probeColumn_seq : probeColumn <$> seq 0 6 = [-1; 1; -2; 2; -3; 3].
Proof. reflexivity. Qed.

(** ** One placement *)

Section Placement.
Variable heap : loc → Movement.

Lemma some_overlap_false (mv : loc) (col : list entry) :
  some_overlap heap mv col = false
  ↔ ∀ e, e ∈ col → movementsOverlap (heap mv) (heap (movement e)) = false.
Proof.
  unfold some_overlap. induction col as [|e col IH]; simpl.
  - split; [|done]. by intros _ e ?%elem_of_nil.
  - rewrite orb_false_iff, IH. split.
    + intros [He Hcol] e' [->|Hin]%elem_of_cons; auto.
    + intros H. split; [apply H; by left|]. intros e' Hin. apply H. by right.
Qed.

Lemma some_overlap_count (mv : loc) (col : list entry) :
  some_overlap heap mv col = true →
  (1 ≤ length (filter
     (λ e, movementsOverlap (heap mv) (heap (movement e)) = true) col))%nat.
Proof.
  unfold some_overlap. induction col as [|e col IH]; simpl; [done|].
  rewrite filter_cons. intros [He|Hcol]%orb_true_iff.
  - rewrite decide_True by done. simpl. lia.
  - case_decide; simpl; [lia|]. by apply IH.
Qed.

Lemma conflict_lookup (mv : loc) (cols : gmap Z (list entry)) (c : Z) :
  ¬ free heap mv cols c →
  ∃ col, cols !! c = Some col ∧ some_overlap heap mv col = true.
Proof.
  unfold free, column. intros Hc.
  destruct (cols !! c) as [col|]; simpl in *; [|done].
  exists col. split; [done|]. by destruct (some_overlap heap mv col).
Qed.

Lemma conflict_ensure (mv : loc) (cols : gmap Z (list entry)) (c : Z) :
  ¬ free heap mv cols c → ensure c cols = cols.
Proof.
  intros (col & Hc & _)%conflict_lookup. unfold ensure. by rewrite Hc.
Qed.

Lemma free_dec (mv : loc) (cols : gmap Z (list entry)) (c : Z) :
  free heap mv cols c ∨ ¬ free heap mv cols c.
Proof. unfold free. destruct (some_overlap heap mv (column c cols)); auto. Qed.

(** Columns in conflict with [mv] each hold an occupant overlapping it. *)
Lemma conflicts_le_overlapping (mv : loc) (ks : list Z) :
  ∀ cols : gmap Z (list entry),
    NoDup ks →
    (∀ c, c ∈ ks → ¬ free heap mv cols c) →
    (length ks ≤ overlapping heap mv cols)%nat.
Proof.
  induction ks as [|k ks IH]; intros cols Hnd Hks; simpl; [lia|].
  apply NoDup_cons in Hnd as [Hk Hnd].
  destruct (conflict_lookup mv cols k) as (col & Hc & Hov).
  { apply Hks. by left. }
  unfold overlapping. rewrite (weight_delete _ cols k col Hc).
  pose proof (some_overlap_count mv col Hov).
  specialize (IH (delete k cols) Hnd).
  unfold overlapping in IH.
  assert (length ks ≤ weight (λ col0, length (filter
    (λ e, movementsOverlap (heap mv) (heap (movement e)) = true) col0))
    (delete k cols))%nat; [|lia].
  apply IH. intros c Hin. unfold free, column.
  rewrite lookup_delete_ne by (intros ->; done).
  apply Hks. by right.
Qed.

Lemma overlapping_le_occupants (mv : loc) (cols : gmap Z (list entry)) :
  (overlapping heap mv cols ≤ occupants cols)%nat.
Proof. apply weight_mono. intros col. apply length_filter. Qed.

(** If the centre and the first [n] probes are in conflict, more than [n]
    occupants overlap [mv]. *)
Lemma failed_probes_bound (mv : loc) (cols : gmap Z (list entry)) (n : nat) :
  ¬ free heap mv cols 0 →
  (∀ j, (j < n)%nat → ¬ free heap mv cols (probeColumn j)) →
  (n < overlapping heap mv cols)%nat.
Proof.
  intros H0 Hn.
  pose proof (conflicts_le_overlapping mv (0 :: (probeColumn <$> seq 0 n)) cols)
    as Hle.
  simpl in Hle. rewrite length_fmap, length_seq in Hle.
  apply Hle.
  - apply NoDup_cons. split.
    + intros (j & Hj & _)%list_elem_of_fmap.
      by destruct (probeColumn_nonzero j).
    + apply NoDup_fmap_2; [|apply NoDup_seq].
      intros ???. by apply probeColumn_inj.
  - intros c [->|(j & -> & Hj)%list_elem_of_fmap]%elem_of_cons; [done|].
    apply Hn. apply elem_of_seq in Hj. lia.
Qed.

(** Some probe is free, and the first free one comes before the number of
    occupants overlapping [mv]. *)
Lemma first_free_probe (mv : loc) (cols : gmap Z (list entry)) :
  ¬ free heap mv cols 0 →
  ∃ k, (k < overlapping heap mv cols)%nat
       ∧ free heap mv cols (probeColumn k)
       ∧ ∀ j, (j < k)%nat → ¬ free heap mv cols (probeColumn j).
Proof.
  intros H0.
  assert (∀ d n, (n + d = overlapping heap mv cols)%nat →
            (∀ j, (j < n)%nat → ¬ free heap mv cols (probeColumn j)) →
            ∃ k, (k < overlapping heap mv cols)%nat
                 ∧ free heap mv cols (probeColumn k)
                 ∧ ∀ j, (j < k)%nat → ¬ free heap mv cols (probeColumn j))
    as Hsearch.
  { induction d as [|d IH]; intros n Hnd Hn.
    - pose proof (failed_probes_bound mv cols n H0 Hn). lia.
    - destruct (free_dec mv cols (probeColumn n)) as [Hf|Hf].
      + exists n. split; [lia|]. done.
      + apply (IH (S n)); [lia|].
        intros j Hj. destruct (decide (j = n)) as [->|]; [done|].
        apply Hn. lia. }
  apply (Hsearch (overlapping heap mv cols) 0%nat); [lia|]. lia.
Qed.

Lemma Chosen_free (mv : loc) (cols : gmap Z (list entry)) (c : Z) :
  Chosen heap mv cols c → free heap mv cols c.
Proof. by intros [[? ->] | (_ & k & -> & ? & _)]. Qed.

Lemma Chosen_unique (mv : loc) (cols : gmap Z (list entry)) (c c' : Z) :
  Chosen heap mv cols c → Chosen heap mv cols c' → c = c'.
Proof.
  intros [[H0 ->] | (H0 & k & -> & Hk & Hlt)]
         [[H0' ->] | (H0' & k' & -> & Hk' & Hlt')]; try done.
  destruct (Nat.lt_trichotomy k k') as [H | [-> | H]]; [|done|].
  - by destruct (Hlt' k H).
  - by destruct (Hlt k' H).
Qed.

Lemma Chosen_exists (mv : loc) (cols : gmap Z (list entry)) :
  ∃ c, Chosen heap mv cols c
       ∧ Z.abs c ≤ Z.of_nat (overlapping heap mv cols).
Proof.
  destruct (free_dec mv cols 0) as [H0|H0].
  - exists 0. split; [by left|lia].
  - destruct (first_free_probe mv cols H0) as (k & Hk & Hf & Hlt).
    exists (probeColumn k). split.
    + right. split; [done|]. by exists k.
    + rewrite probeColumn_distance.
      pose proof (Nat.div_mod_eq k 2). lia.
Qed.
End Placement.

(** ** The probe loop and the [forEach] callback *)

Section Loop.
Variable heap : loc → Movement.

Lemma placed_ensure (mv : loc) (i : option nat) (c : Z) (st : state) :
  placed mv i c (mkState (ensure c (columns st)) (columnAssignments st))
  = placed mv i c st.
Proof. unfold placed. simpl. by rewrite push_ensure. Qed.

Lemma conflict_state (mv : loc) (c : Z) (st : state) :
  ¬ free heap mv (columns st) c →
  mkState (ensure c (columns st)) (columnAssignments st) = st.
Proof. intros H. rewrite (conflict_ensure heap mv _ _ H). by destruct st. Qed.

(** From iteration [n], the loop stops at the first free probe [k],
    provided the fuel reaches it. *)
Lemma probe_run (mv : loc) (i : option nat) (k : nat) :
  ∀ (fuel n : nat) (st : state),
    (n ≤ k)%nat → (k < n + fuel)%nat →
    free heap mv (columns st) (probeColumn k) →
    (∀ j, (n ≤ j)%nat → (j < k)%nat → ¬ free heap mv (columns st) (probeColumn j)) →
    probe heap fuel mv i (Z.of_nat (n / 2) + 1) (Nat.even n) st
    = Some (placed mv i (probeColumn k) st).
Proof.
  induction fuel as [|fuel IH]; intros n st Hnk Hk Hfree Hconf; [lia|].
  cbn [probe]. cbv zeta.
  change (if Nat.even n then - (Z.of_nat (n / 2) + 1) else Z.of_nat (n / 2) + 1)
    with (probeColumn n).
  cbn [columns]. rewrite column_ensure.
  destruct (decide (n = k)) as [->|Hne].
  - unfold free in Hfree. rewrite Hfree. cbn [negb].
    by rewrite placed_ensure.
  - assert (¬ free heap mv (columns st) (probeColumn n)) as Hn
      by (apply Hconf; lia).
    rewrite (conflict_state mv _ st Hn).
    unfold free in Hn. apply not_false_is_true in Hn. rewrite Hn. cbn [negb].
    destruct (Nat.even n) eqn:Ev.
    + destruct (loop_state_left n Ev) as [Ev' Hd].
      rewrite <- Hd, <- Ev'. apply IH; [lia|lia|done|].
      intros j ??. apply Hconf; lia.
    + destruct (loop_state_right n Ev) as [Ev' Hd].
      rewrite <- Hd, <- Ev'. apply IH; [lia|lia|done|].
      intros j ??. apply Hconf; lia.
Qed.

(** Whatever the fuel, a loop that stops has stopped at the first free
    probe. *)
Lemma probe_stops (mv : loc) (i : option nat) :
  ∀ (fuel n : nat) (st st' : state),
    probe heap fuel mv i (Z.of_nat (n / 2) + 1) (Nat.even n) st = Some st' →
    ∃ k, (n ≤ k)%nat
         ∧ free heap mv (columns st) (probeColumn k)
         ∧ (∀ j, (n ≤ j)%nat → (j < k)%nat →
              ¬ free heap mv (columns st) (probeColumn j))
         ∧ st' = placed mv i (probeColumn k) st.
Proof.
  induction fuel as [|fuel IH]; intros n st st'; [done|].
  cbn [probe]. cbv zeta.
  change (if Nat.even n then - (Z.of_nat (n / 2) + 1) else Z.of_nat (n / 2) + 1)
    with (probeColumn n).
  cbn [columns]. rewrite column_ensure.
  destruct (free_dec heap mv (columns st) (probeColumn n)) as [Hn|Hn].
  - pose proof Hn as Hn'. unfold free in Hn'. rewrite Hn'. cbn [negb].
    rewrite placed_ensure. intros [= <-].
    exists n. split; [lia|]. split; [done|]. split; [lia|done].
  - rewrite (conflict_state mv _ st Hn).
    pose proof Hn as Hn'. unfold free in Hn'.
    apply not_false_is_true in Hn'. rewrite Hn'. cbn [negb].
    assert (∀ k, (S n ≤ k)%nat →
              (∀ j, (S n ≤ j)%nat → (j < k)%nat →
                 ¬ free heap mv (columns st) (probeColumn j)) →
              ∀ j, (n ≤ j)%nat → (j < k)%nat →
                 ¬ free heap mv (columns st) (probeColumn j)) as Hext.
    { intros k Hk Hconf j ??. destruct (decide (j = n)) as [->|]; [done|].
      apply Hconf; lia. }
    destruct (Nat.even n) eqn:Ev.
    + destruct (loop_state_left n Ev) as [Ev' Hd].
      rewrite <- Hd, <- Ev'. intros (k & ? & ? & ? & ->)%IH.
      exists k. split; [lia|]. split; [done|]. split; [by apply Hext|done].
    + destruct (loop_state_right n Ev) as [Ev' Hd].
      rewrite <- Hd, <- Ev'. intros (k & ? & ? & ? & ->)%IH.
      exists k. split; [lia|]. split; [done|]. split; [by apply Hext|done].
Qed.

(** The callback places [mv] in its chosen column as soon as the fuel
    reaches the number of occupants overlapping [mv]. *)
Lemma place_Chosen (fuel : nat) (movements : list loc) (st : state)
    (mv : loc) (c : Z) :
  Chosen heap mv (columns st) c →
  (overlapping heap mv (columns st) ≤ fuel)%nat →
  place heap fuel movements st mv
  = Some (placed mv (indexOf movements mv) c st).
Proof.
  intros [[H0 ->] | (H0 & k & -> & Hk & Hlt)] Hfuel; unfold place; cbv zeta;
    cbn [columns]; rewrite column_ensure.
  - unfold free in H0. rewrite H0. cbn [negb]. by rewrite placed_ensure.
  - rewrite (conflict_state mv _ st H0).
    pose proof H0 as H0'. unfold free in H0'.
    apply not_false_is_true in H0'. rewrite H0'. cbn [negb].
    pose proof (failed_probes_bound heap mv _ k H0 Hlt).
    apply (probe_run mv _ k fuel 0%nat st); [lia|lia|done|].
    intros j _ Hj. by apply Hlt.
Qed.

Lemma place_stops (fuel : nat) (movements : list loc) (st st' : state)
    (mv : loc) :
  place heap fuel movements st mv = Some st' →
  ∃ c, Chosen heap mv (columns st) c
       ∧ st' = placed mv (indexOf movements mv) c st.
Proof.
  unfold place; cbv zeta; cbn [columns]; rewrite column_ensure.
  destruct (free_dec heap mv (columns st) 0) as [H0|H0].
  - pose proof H0 as H0'. unfold free in H0'. rewrite H0'. cbn [negb].
    rewrite placed_ensure. intros [= <-]. exists 0. split; [by left|done].
  - rewrite (conflict_state mv _ st H0).
    pose proof H0 as H0'. unfold free in H0'.
    apply not_false_is_true in H0'. rewrite H0'. cbn [negb].
    intros (k & _ & Hk & Hlt & ->)%(probe_stops mv _ fuel 0%nat).
    exists (probeColumn k). split; [|done].
    right. split; [done|]. exists k. split; [done|]. split; [done|].
    intros j Hj. apply Hlt; lia.
Qed.

Lemma forEach_total (fuel : nat) (movements : list loc) :
  ∀ (rest : list loc) (st : state),
    (occupants (columns st) + length rest ≤ fuel)%nat →
    is_Some (forEach heap fuel movements rest st).
Proof.
  induction rest as [|mv rest IH]; intros st Hfuel; [by eexists|].
  cbn [forEach]. simpl in Hfuel.
  destruct (Chosen_exists heap mv (columns st)) as (c & Hc & _).
  pose proof (overlapping_le_occupants heap mv (columns st)).
  rewrite (place_Chosen fuel movements st mv c Hc) by lia.
  simpl. apply IH. cbn [placed columns]. rewrite occupants_push. lia.
Qed.

Lemma forEach_fuel (fuel fuel' : nat) (movements : list loc) :
  ∀ (rest : list loc) (st : state),
    (occupants (columns st) + length rest ≤ fuel)%nat →
    (occupants (columns st) + length rest ≤ fuel')%nat →
    forEach heap fuel movements rest st = forEach heap fuel' movements rest st.
Proof.
  induction rest as [|mv rest IH]; intros st Hfuel Hfuel'; [done|].
  cbn [forEach]. simpl in Hfuel, Hfuel'.
  destruct (Chosen_exists heap mv (columns st)) as (c & Hc & _).
  pose proof (overlapping_le_occupants heap mv (columns st)).
  rewrite !(place_Chosen _ movements st mv c Hc) by lia.
  simpl. apply IH; cbn [placed columns]; rewrite occupants_push; lia.
Qed.

(** An invariant of the placements holds of the final state. *)
Lemma forEach_invariant (I : list loc → state → Prop) (fuel : nat)
    (movements : list loc) :
  ∀ (rest done : list loc) (st st' : state),
    I done st →
    (∀ d s mv c r,
       done ++ rest = d ++ mv :: r → I d s → Chosen heap mv (columns s) c →
       I (d ++ [mv]) (placed mv (indexOf movements mv) c s)) →
    forEach heap fuel movements rest st = Some st' →
    I (done ++ rest) st'.
Proof.
  induction rest as [|mv rest IH]; intros done st st' HI Hstep.
  - intros [= <-]. by rewrite app_nil_r.
  - cbn [forEach]. destruct (place heap fuel movements st mv) as [s1|] eqn:E;
      [|done].
    simpl. apply place_stops in E as (c & Hc & ->).
    intros Hrun. rewrite (cons_middle mv), app_assoc.
    eapply IH; [|  |exact Hrun].
    + by apply (Hstep done st mv c rest).
    + intros d s mv' c' r Heq. apply (Hstep d s mv' c' r).
      by rewrite <- Heq, <- app_assoc.
Qed.
End Loop.

(** ** The sort *)

Section Sorting.
Variable heap : loc → Movement.

Lemma insert_by_start_Permutation (a : loc) (l : list loc) :
  insert_by_start heap a l ≡ₚ a :: l.
Proof.
  induction l as [|b l IH]; simpl; [done|].
  destruct (startOf heap a - startOf heap b <=? 0); [done|].
  rewrite IH. apply Permutation_swap.
Qed.

Lemma sort_Permutation (l : list loc) : sort heap l ≡ₚ l.
Proof.
  induction l as [|a l IH]; simpl; [done|].
  by rewrite insert_by_start_Permutation, IH.
Qed.

Lemma length_sort (l : list loc) : length (sort heap l) = length l.
Proof. by rewrite sort_Permutation. Qed.

Lemma insert_by_start_sorted (a : loc) (l : list loc) :
  StronglySorted (by_start heap) l → StronglySorted (by_start heap) (insert_by_start heap a l).
Proof.
  induction 1 as [|b l Hl IH Hb]; simpl.
  - repeat constructor.
  - destruct (startOf heap a - startOf heap b <=? 0) eqn:E.
    + apply Z.leb_le in E. constructor; [by constructor|].
      constructor; [unfold by_start; lia|].
      eapply Forall_impl; [exact Hb|]. unfold by_start. intros; simpl in *. lia.
    + apply Z.leb_gt in E. constructor; [done|].
      rewrite insert_by_start_Permutation.
      constructor; [unfold by_start; lia|done].
Qed.

Lemma sort_sorted (l : list loc) : StronglySorted (by_start heap) (sort heap l).
Proof.
  induction l as [|a l IH]; simpl; [constructor|].
  by apply insert_by_start_sorted.
Qed.

(** With pairwise distinct start years the sorted order does not depend
    on the input order. *)
Lemma sort_order_independent (l l' : list loc) :
  NoDup (startOf heap <$> l) → l ≡ₚ l' → sort heap l = sort heap l'.
Proof.
  intros Hnd Hperm.
  apply (StronglySorted_unique_strong (by_start heap));
    [|apply sort_sorted|apply sort_sorted|by rewrite !sort_Permutation].
  intros x1 x2 H1 H2 H12 H21.
  rewrite sort_Permutation in H1. rewrite sort_Permutation, <- Hperm in H2.
  apply list_elem_of_lookup in H1 as [i1 H1], H2 as [i2 H2].
  assert (i1 = i2) as ->; [|congruence].
  apply (NoDup_lookup _ _ _ (startOf heap x1) Hnd).
  - by rewrite list_lookup_fmap, H1.
  - rewrite list_lookup_fmap, H2. simpl. f_equal. unfold by_start in *. lia.
Qed.

Lemma arrange_total (movements : list loc) :
  ∃ st, arrange heap (length movements) movements = Some st
        ∧ ∀ fuel, (length movements ≤ fuel)%nat →
            arrange heap fuel movements = Some st.
Proof.
  unfold arrange.
  assert (occupants (columns (initial movements))
            + length (sort heap movements) ≤ length movements)%nat as Hb.
  { rewrite length_sort. by cbn. }
  destruct (forEach_total heap (length movements) movements _ _ Hb) as [st Hst].
  exists st. split; [done|]. intros fuel Hfuel.
  rewrite <- Hst. apply forEach_fuel; [lia|done].
Qed.
End Sorting.

(** ** Invariants of a run *)

Section Invariants.
Variable heap : loc → Movement.

Lemma elem_of_column_placed (mv : loc) (i : option nat) (c c' : Z)
    (st : state) (e : entry) :
  e ∈ column c' (columns (placed mv i c st))
  ↔ e ∈ column c' (columns st) ∨ (c' = c ∧ e = mkEntry mv i).
Proof.
  cbn [placed columns]. rewrite column_push. case_decide as Hc.
  - subst c'. rewrite elem_of_app, list_elem_of_singleton. tauto.
  - split; [by left|]. by intros [? | [? _]].
Qed.

Lemma length_assign (i : option nat) (c : Z) (a : list Z) :
  length (assign i c a) = length a.
Proof. destruct i; simpl; [apply length_insert|done]. Qed.

Lemma recorded_initial (movements : list loc) :
  recorded movements (initial movements).
Proof.
  split; cbn [initial columns columnAssignments].
  - apply length_replicate.
  - intros c e. unfold column. rewrite lookup_empty. by intros ?%elem_of_nil.
  - intros j Hj _. by apply lookup_replicate_2.
Qed.

Lemma recorded_step (movements : list loc) (st : state) (mv : loc) (c : Z) :
  recorded movements st →
  recorded movements (placed mv (indexOf movements mv) c st).
Proof.
  intros [Hlen Hidx Hun]. split.
  - cbn [placed columnAssignments]. by rewrite length_assign.
  - intros c' e [He | [_ ->]]%elem_of_column_placed; [by eapply Hidx|done].
  - intros j Hj Hm. cbn [placed columnAssignments].
    destruct (indexOf movements mv) as [n|] eqn:E; simpl; [|by apply Hun].
    rewrite list_lookup_insert_ne; [by apply Hun|].
    intros ->. by destruct (Hm mv).
Qed.

Lemma arrange_recorded (fuel : nat) (movements : list loc) (st : state) :
  arrange heap fuel movements = Some st → recorded movements st.
Proof.
  unfold arrange. intros Hrun.
  apply (forEach_invariant heap (λ _, recorded movements) fuel movements
           (sort heap movements) [] (initial movements) st);
    [apply recorded_initial| |done].
  intros d s mv c r _ Hs _. by apply recorded_step.
Qed.

Lemma separated_initial (movements : list loc) :
  separated heap movements [] (initial movements).
Proof.
  split; cbn [initial columns columnAssignments]; unfold column;
    try setoid_rewrite lookup_empty; simpl.
  - apply length_replicate.
  - by intros c e ?%elem_of_nil.
  - by intros c e i ?%elem_of_nil.
  - by intros m ?%elem_of_nil.
  - by intros c e1 e2 ?%elem_of_nil.
Qed.

Lemma separated_step (movements done : list loc) (st : state)
    (mv : loc) (c : Z) :
  mv ∈ movements → mv ∉ done →
  separated heap movements done st →
  Chosen heap mv (columns st) c →
  separated heap movements (done ++ [mv])
    (placed mv (indexOf movements mv) c st).
Proof.
  intros Hin Hnew [Hlen Hdone Hasg Hpl Hap] Hc.
  destruct (indexOf_elem movements mv Hin) as [n Hn].
  pose proof (indexOf_lt _ _ _ Hn) as Hlt.
  apply Chosen_free in Hc. unfold free in Hc.
  rewrite some_overlap_false in Hc.
  split.
  - cbn [placed columnAssignments]. by rewrite length_assign.
  - intros c' e [He | [_ ->]]%elem_of_column_placed; apply elem_of_app.
    + left. by eapply Hdone.
    + right. by apply list_elem_of_singleton.
  - intros c' e i [He | [-> ->]]%elem_of_column_placed Hi;
      cbn [placed columnAssignments]; rewrite Hn; simpl.
    + rewrite list_lookup_insert_ne; [by eapply Hasg|].
      intros ->. apply indexOf_Some in Hn as [Hn _], Hi as [Hi _].
      apply Hnew. replace mv with (movement e) by congruence.
      by eapply Hdone.
    + simpl in Hi. assert (i = n) as -> by congruence.
      apply list_lookup_insert_eq. lia.
  - intros m [Hm | ->%list_elem_of_singleton]%elem_of_app.
    + destruct (Hpl m Hm) as (c' & e & He & <-).
      exists c', e. split; [|done]. apply elem_of_column_placed. by left.
    + exists c, (mkEntry mv (indexOf movements mv)). split; [|done].
      apply elem_of_column_placed. by right.
  - intros c' e1 e2 [H1 | [-> ->]]%elem_of_column_placed
                    [H2 | [Hc' ->]]%elem_of_column_placed Hne.
    + by eapply Hap.
    + subst c'. rewrite movementsOverlap_sym. by apply Hc.
    + by apply Hc.
    + done.
Qed.

Lemma arrange_separated (fuel : nat) (movements : list loc) (st : state) :
  NoDup movements →
  arrange heap fuel movements = Some st →
  separated heap movements (sort heap movements) st.
Proof.
  unfold arrange. intros Hnd Hrun.
  apply (forEach_invariant heap (separated heap movements) fuel movements
           (sort heap movements) [] (initial movements) st);
    [apply separated_initial| |done].
  intros d s mv c r Heq Hs Hc. simpl in Heq.
  assert (NoDup (d ++ mv :: r)) as Hnd'
    by (by rewrite <- Heq, sort_Permutation).
  apply separated_step; [| |done|done].
  - rewrite <- (sort_Permutation heap movements), Heq.
    apply elem_of_app. right. by left.
  - apply NoDup_app in Hnd' as (_ & Hd & _). intros Hin.
    apply (Hd mv Hin). by left.
Qed.

(** The column recorded for a movement is the one that holds it. *)
Lemma separated_lookup (movements : list loc) (st : state) (i : nat) (m : loc) :
  NoDup movements →
  separated heap movements (sort heap movements) st →
  movements !! i = Some m →
  ∃ c e, columnAssignments st !! i = Some c
         ∧ e ∈ column c (columns st) ∧ movement e = m.
Proof.
  intros Hnd Hsep Hi.
  destruct (separated_placed _ _ _ _ Hsep m) as (c & e & He & Hm).
  { rewrite sort_Permutation. apply list_elem_of_lookup. eauto. }
  exists c, e. split; [|done].
  apply (separated_assigned _ _ _ _ Hsep c e i He).
  rewrite Hm. by apply indexOf_NoDup.
Qed.
Lemma traced_initial (movements : list loc) :
  traced movements [] (initial movements).
Proof.
  split; [apply length_replicate|]. by intros m ?%elem_of_nil.
Qed.

Lemma traced_step (movements done : list loc) (st : state) (mv : loc) (c : Z) :
  mv ∈ movements →
  traced movements done st →
  traced movements (done ++ [mv]) (placed mv (indexOf movements mv) c st).
Proof.
  intros Hin [Hlen Htr].
  destruct (indexOf_elem movements mv Hin) as [n Hn].
  pose proof (indexOf_lt _ _ _ Hn) as Hlt.
  split; [cbn [placed columnAssignments]; by rewrite length_assign|].
  intros m Hm. destruct (decide (m = mv)) as [->|Hne].
  - exists c, (mkEntry mv (indexOf movements mv)), n.
    split; [done|]. split; [|split; [|done]].
    + cbn [placed columnAssignments]. rewrite Hn. simpl.
      apply list_lookup_insert_eq. lia.
    + apply elem_of_column_placed. by right.
  - apply elem_of_app in Hm as [Hm | ->%list_elem_of_singleton]; [|done].
    destruct (Htr m Hm) as (c' & e & i & Hi & Hc' & He & Hme).
    exists c', e, i. split; [done|]. split; [|split; [|done]].
    + cbn [placed columnAssignments]. rewrite Hn. simpl.
      rewrite list_lookup_insert_ne; [done|].
      intros ->. apply indexOf_Some in Hn as [Hn _], Hi as [Hi _]. congruence.
    + apply elem_of_column_placed. by left.
Qed.

Lemma arrange_traced (fuel : nat) (movements : list loc) (st : state) :
  arrange heap fuel movements = Some st →
  traced movements (sort heap movements) st.
Proof.
  unfold arrange. intros Hrun.
  apply (forEach_invariant heap (traced movements) fuel movements
           (sort heap movements) [] (initial movements) st);
    [apply traced_initial| |done].
  intros d s mv c r Heq Hs _. simpl in Heq. apply traced_step; [|done].
  rewrite <- (sort_Permutation heap movements), Heq.
  apply elem_of_app. right. by left.
Qed.
End Invariants.

(** ** Two runs over the same sorted list *)

Section Simulation.
Variable heap : loc → Movement.

Lemma some_overlap_fmap (mv : loc) (col : list entry) :
  some_overlap heap mv col
  = existsb (λ r, movementsOverlap (heap mv) (heap r)) (movement <$> col).
Proof.
  unfold some_overlap. induction col as [|e col IH]; [done|].
  rewrite fmap_cons. simpl. by rewrite IH.
Qed.

Lemma free_same (mv : loc) (st1 st2 : state) (c : Z) :
  same_occupants st1 st2 →
  free heap mv (columns st1) c ↔ free heap mv (columns st2) c.
Proof. intros Hs. unfold free. by rewrite !some_overlap_fmap, (Hs c). Qed.

Lemma Chosen_same (mv : loc) (st1 st2 : state) (c : Z) :
  same_occupants st1 st2 →
  Chosen heap mv (columns st1) c → Chosen heap mv (columns st2) c.
Proof.
  intros Hs [[H0 ->] | (H0 & k & -> & Hk & Hlt)].
  - left. split; [|done]. by apply (free_same mv st1 st2).
  - right. split; [by rewrite <- (free_same mv st1 st2)|].
    exists k. split; [done|]. split; [by apply (free_same mv st1 st2)|].
    intros j Hj. rewrite <- (free_same mv st1 st2) by done. by apply Hlt.
Qed.

Lemma same_occupants_placed (mv : loc) (i1 i2 : option nat) (c : Z)
    (st1 st2 : state) :
  same_occupants st1 st2 →
  same_occupants (placed mv i1 c st1) (placed mv i2 c st2).
Proof.
  intros Hs c'. cbn [placed columns]. rewrite !column_push.
  case_decide; [|apply Hs]. by rewrite !fmap_app, (Hs c).
Qed.

Lemma forEach_same (fuel1 fuel2 : nat) (movements1 movements2 : list loc) :
  ∀ (rest : list loc) (st1 st2 st1' st2' : state),
    same_occupants st1 st2 →
    forEach heap fuel1 movements1 rest st1 = Some st1' →
    forEach heap fuel2 movements2 rest st2 = Some st2' →
    same_occupants st1' st2'.
Proof.
  induction rest as [|mv rest IH]; intros st1 st2 st1' st2' Hs.
  - by intros [= <-] [= <-].
  - cbn [forEach].
    destruct (place heap fuel1 movements1 st1 mv) as [s1|] eqn:E1; [|done].
    destruct (place heap fuel2 movements2 st2 mv) as [s2|] eqn:E2; [|done].
    simpl. apply place_stops in E1 as (c1 & Hc1 & ->).
    apply place_stops in E2 as (c2 & Hc2 & ->).
    assert (c1 = c2) as ->.
    { eapply Chosen_unique; [|exact Hc2]. by eapply Chosen_same. }
    apply IH. by apply same_occupants_placed.
Qed.
End Simulation.

(** ** Claims about the overlap resolver *)

Lemma place_probe (heap : loc → Movement) (fuel : nat) (movements : list loc)
    (st : state) (mv : loc) (k : nat) :
  ¬ free heap mv (columns st) 0 →
  free heap mv (columns st) (probeColumn k) →
  (∀ j, (j < k)%nat → ¬ free heap mv (columns st) (probeColumn j)) →
  (k < fuel)%nat →
  place heap fuel movements st mv
  = Some (placed mv (indexOf movements mv) (probeColumn k) st).
Proof.
  intros H0 Hk Hlt Hfuel. unfold place; cbv zeta; cbn [columns].
  rewrite column_ensure, (conflict_state heap mv _ st H0).
  pose proof H0 as H0'. unfold free in H0'.
  apply not_false_is_true in H0'. rewrite H0'. cbn [negb].
  apply (probe_run heap mv _ k fuel 0%nat st); [lia|lia|done|].
  intros j _ Hj. by apply Hlt.
Qed.

Lemma arrange_no_overlap (heap : loc → Movement) (movements : list loc) :
  NoDup movements →
  ∃ assignments,
    arrangeMovementsInColumns heap movements = Some assignments
    ∧ ∀ i j a b c,
        i ≠ j → movements !! i = Some a → movements !! j = Some b →
        assignments !! i = Some c → assignments !! j = Some c →
        movementsOverlap (heap a) (heap b) = false.
Proof.
  intros Hnd.
  destruct (arrange_total heap movements) as (st & Hst & _).
  exists (columnAssignments st). split.
  { unfold arrangeMovementsInColumns, arrangeMovementsInColumns_fuel.
    by rewrite Hst. }
  pose proof (arrange_separated heap _ _ _ Hnd Hst) as Hsep.
  intros i j a b c Hij Hi Hj Hci Hcj.
  destruct (separated_lookup heap _ _ _ _ Hnd Hsep Hi) as (ca & ea & Ha & Hea & <-).
  destruct (separated_lookup heap _ _ _ _ Hnd Hsep Hj) as (cb & eb & Hb & Heb & <-).
  assert (ca = c) as -> by congruence.
  assert (cb = c) as -> by congruence.
  apply (separated_apart _ _ _ _ Hsep c ea eb Hea Heb).
  intros Heq. apply Hij. rewrite Heq in Hi.
  by apply (NoDup_lookup _ _ _ _ Hnd Hi Hj).
Qed.

(** C1: on an input whose movements have pairwise distinct ids, two
    different positions that receive the same column hold movements that do
    not overlap. *)
Theorem same_column_no_overlap (heap : loc → Movement) (movements : list loc) :
  NoDup ((λ r, id (heap r)) <$> movements) →
  ∃ assignments,
    arrangeMovementsInColumns heap movements = Some assignments
    ∧ ∀ i j a b c,
        i ≠ j → movements !! i = Some a → movements !! j = Some b →
        assignments !! i = Some c → assignments !! j = Some c →
        movementsOverlap (heap a) (heap b) = false.
Proof. intros Hid. apply arrange_no_overlap. by eapply NoDup_fmap_1. Qed.

Lemma same_column_no_overlap_witness :
  ∃ assignments,
    arrangeMovementsInColumns
      (storeOf [mockMovement "test1" 1400 1600; mockMovement "test2" 1500 1700;
                mockMovement "test3" 1600 1800])
      [0; 1; 2]%nat = Some assignments
    ∧ ∀ i j a b c,
        i ≠ j → [0; 1; 2]%nat !! i = Some a → [0; 1; 2]%nat !! j = Some b →
        assignments !! i = Some c → assignments !! j = Some c →
        movementsOverlap
          (storeOf [mockMovement "test1" 1400 1600; mockMovement "test2" 1500 1700;
                    mockMovement "test3" 1600 1800] a)
          (storeOf [mockMovement "test1" 1400 1600; mockMovement "test2" 1500 1700;
                    mockMovement "test3" 1600 1800] b) = false.
Proof.
  apply (same_column_no_overlap
    (storeOf [mockMovement "test1" 1400 1600; mockMovement "test2" 1500 1700;
              mockMovement "test3" 1600 1800]) [0; 1; 2]%nat).
  refine (bool_decide_unpack _ _). vm_compute. exact I.
Defined.

(** C2: on the overlapping pair 1400-1600, 1500-1700 of the test, the code
    returns [0, -1]: the first probe after the centre is the left column,
    where the test expects [0, 1]. *)
Theorem overlapping_pair_assignment :
  arrangeMovementsInColumns
    (storeOf [mockMovement "test1" 1400 1600; mockMovement "test2" 1500 1700])
    [0; 1]%nat = Some [0; -1].
Proof. vm_compute. reflexivity. Qed.

(** C3: an entity in conflict at column 0 is placed in the first column of
    the sequence -1, +1, -2, +2, -3, +3, ... that holds no occupant
    overlapping it: every earlier column of the sequence is in conflict, so
    both columns at each smaller distance have failed, and the left column
    at the same distance has failed when the entity goes right. *)
Theorem probe_order (heap : loc → Movement) (movements : list loc)
    (st : state) (mv : loc) :
  some_overlap heap mv (column 0 (columns st)) = true →
  ∃ k : nat,
    some_overlap heap mv (column (probeColumn k) (columns st)) = false
    ∧ (∀ j, (j < k)%nat →
         some_overlap heap mv (column (probeColumn j) (columns st)) = true)
    ∧ (∀ fuel, (k < fuel)%nat →
         place heap fuel movements st mv
         = Some (placed mv (indexOf movements mv) (probeColumn k) st))
    ∧ probeColumn <$> seq 0 6 = [-1; 1; -2; 2; -3; 3]
    ∧ (∀ d, 1 ≤ d < Z.abs (probeColumn k) →
         some_overlap heap mv (column (- d) (columns st)) = true
         ∧ some_overlap heap mv (column d (columns st)) = true)
    ∧ (0 < probeColumn k →
         some_overlap heap mv (column (- probeColumn k) (columns st)) = true).
Proof.
  intros Hc.
  assert (¬ free heap mv (columns st) 0) as H0 by (unfold free; congruence).
  destruct (first_free_probe heap mv (columns st) H0) as (k & _ & Hk & Hlt).
  assert (∀ j, (j < k)%nat →
            some_overlap heap mv (column (probeColumn j) (columns st)) = true)
    as Hlt'.
  { intros j Hj. apply not_false_is_true. by apply Hlt. }
  exists k. split; [done|]. split; [done|]. split.
  { intros fuel Hfuel. by apply place_probe. }
  split; [reflexivity|]. split.
  - intros d Hd. rewrite probeColumn_distance in Hd.
    pose proof (Nat.div_mod_eq k 2).
    pose proof (Nat.mod_upper_bound k 2).
    pose proof (Hlt' (2 * Z.to_nat (d - 1))%nat) as Hl.
    pose proof (Hlt' (2 * Z.to_nat (d - 1) + 1)%nat) as Hr.
    rewrite probeColumn_left in Hl. rewrite probeColumn_right in Hr.
    replace (Z.of_nat (Z.to_nat (d - 1)) + 1) with d in * by lia.
    split; [apply Hl|apply Hr]; lia.
  - destruct (parity_cases k) as [m [-> | ->]].
    + rewrite probeColumn_left. lia.
    + intros _. rewrite probeColumn_right, <- probeColumn_left.
      apply Hlt'. lia.
Qed.

Lemma probe_order_witness :
  ∃ k : nat,
    some_overlap overlappingPair 1%nat
      (column (probeColumn k) (columns centreTaken)) = false
    ∧ (∀ j, (j < k)%nat →
         some_overlap overlappingPair 1%nat
           (column (probeColumn j) (columns centreTaken)) = true)
    ∧ (∀ fuel, (k < fuel)%nat →
         place overlappingPair fuel [0; 1]%nat centreTaken 1%nat
         = Some (placed 1%nat (indexOf [0; 1]%nat 1%nat) (probeColumn k) centreTaken))
    ∧ probeColumn <$> seq 0 6 = [-1; 1; -2; 2; -3; 3]
    ∧ (∀ d, 1 ≤ d < Z.abs (probeColumn k) →
         some_overlap overlappingPair 1%nat (column (- d) (columns centreTaken)) = true
         ∧ some_overlap overlappingPair 1%nat (column d (columns centreTaken)) = true)
    ∧ (0 < probeColumn k →
         some_overlap overlappingPair 1%nat
           (column (- probeColumn k) (columns centreTaken)) = true).
Proof.
  apply (probe_order overlappingPair [0; 1]%nat centreTaken 1%nat).
  vm_compute. reflexivity.
Defined.

(** C7: when the start years are pairwise distinct, every movement receives
    the same column whatever the order of the input list; the output array
    is permuted as the input is. *)
Theorem column_independent_of_order (heap : loc → Movement)
    (movements movements' : list loc) :
  NoDup (startOf heap <$> movements) →
  movements ≡ₚ movements' →
  ∃ assignments assignments',
    arrangeMovementsInColumns heap movements = Some assignments
    ∧ arrangeMovementsInColumns heap movements' = Some assignments'
    ∧ ∀ i j m,
        movements !! i = Some m → movements' !! j = Some m →
        ∃ c, assignments !! i = Some c ∧ assignments' !! j = Some c.
Proof.
  intros Hstart Hperm.
  assert (NoDup movements) as Hnd by (by eapply NoDup_fmap_1).
  assert (NoDup movements') as Hnd' by (by rewrite <- Hperm).
  destruct (arrange_total heap movements) as (st & Hst & _).
  destruct (arrange_total heap movements') as (st' & Hst' & _).
  exists (columnAssignments st), (columnAssignments st').
  unfold arrangeMovementsInColumns, arrangeMovementsInColumns_fuel.
  rewrite Hst, Hst'. split; [done|]. split; [done|].
  pose proof (arrange_separated heap _ _ _ Hnd Hst) as Hsep.
  pose proof (arrange_separated heap _ _ _ Hnd' Hst') as Hsep'.
  assert (same_occupants st st') as Hsame.
  { unfold arrange in Hst, Hst'.
    rewrite <- (sort_order_independent heap _ _ Hstart Hperm) in Hst'.
    eapply (forEach_same heap); [|exact Hst|exact Hst'].
    intros c. reflexivity. }
  intros i j m Hi Hj.
  destruct (separated_lookup heap _ _ _ _ Hnd Hsep Hi) as (c & e & Hc & He & Hm).
  exists c. split; [done|].
  assert (m ∈ movement <$> column c (columns st')) as Hin.
  { rewrite <- (Hsame c). apply list_elem_of_fmap. eauto. }
  apply list_elem_of_fmap in Hin as (e' & -> & He').
  apply (separated_assigned _ _ _ _ Hsep' c e' j He').
  by apply indexOf_NoDup.
Qed.

Lemma column_independent_of_order_witness :
  ∃ assignments assignments',
    arrangeMovementsInColumns threeMovements [0; 1; 2]%nat = Some assignments
    ∧ arrangeMovementsInColumns threeMovements [2; 0; 1]%nat = Some assignments'
    ∧ ∀ i j m,
        [0; 1; 2]%nat !! i = Some m → [2; 0; 1]%nat !! j = Some m →
        ∃ c, assignments !! i = Some c ∧ assignments' !! j = Some c.
Proof.
  apply (column_independent_of_order threeMovements [0; 1; 2]%nat [2; 0; 1]%nat).
  - refine (bool_decide_unpack _ _). vm_compute. exact I.
  - refine (bool_decide_unpack _ _). vm_compute. exact I.
Defined.

(** C8: every run terminates.  The loop for an entity stops at a column
    free of conflict before its distance from the centre exceeds the number
    of occupants overlapping the entity, so a fuel of that number, and for a
    whole run a fuel of the length of the input, is always enough and more
    fuel changes nothing. *)
Theorem arrangeMovementsInColumns_terminates (heap : loc → Movement)
    (movements : list loc) :
  (∃ assignments,
     arrangeMovementsInColumns heap movements = Some assignments
     ∧ length assignments = length movements
     ∧ ∀ fuel, (length movements ≤ fuel)%nat →
         arrangeMovementsInColumns_fuel heap fuel movements = Some assignments)
  ∧ ∀ (st : state) (mv : loc),
      ∃ c, some_overlap heap mv (column c (columns st)) = false
           ∧ Z.abs c ≤ Z.of_nat (overlapping heap mv (columns st))
           ∧ ∀ fuel, (overlapping heap mv (columns st) ≤ fuel)%nat →
               place heap fuel movements st mv
               = Some (placed mv (indexOf movements mv) c st).
Proof.
  split.
  - destruct (arrange_total heap movements) as (st & Hst & Hfuel).
    exists (columnAssignments st).
    unfold arrangeMovementsInColumns, arrangeMovementsInColumns_fuel.
    rewrite Hst. split; [done|]. split.
    + by destruct (arrange_recorded heap _ _ _ Hst).
    + intros fuel Hf. by rewrite (Hfuel fuel Hf).
  - intros st mv.
    destruct (Chosen_exists heap mv (columns st)) as (c & Hc & Hd).
    exists c. split; [by apply Chosen_free in Hc|]. split; [done|].
    intros fuel Hf. by apply place_Chosen.
Qed.



(** ** Further properties of the spec's section 8 *)

Example calculateTimelineHeight_default :
  calculateTimelineHeight mockTimeRange TIMELINE_CONFIG = 1240%Q.
Proof. reflexivity. Qed.

(** The overlap test is symmetric. *)
Theorem movementsOverlap_symmetric (a b : Movement) :
  movementsOverlap a b = movementsOverlap b a.
Proof. unfold movementsOverlap. cbv zeta. by rewrite orb_comm. Qed.

(** Touching periods, one ending in the year the other starts, do not
    overlap. *)
Theorem touching_periods_do_not_overlap (a b : Movement) (e : Z) :
  end_ (period a) = Some e → start (period b) = e →
  movementsOverlap a b = false.
Proof.
  intros Ha Hb. unfold movementsOverlap. cbv zeta. rewrite Ha, Hb. simpl.
  by rewrite Z.leb_refl.
Qed.

Lemma touching_periods_do_not_overlap_witness :
  movementsOverlap (mockMovement "test1" 1400 1500)
                   (mockMovement "test2" 1500 1600) = false.
Proof.
  apply (touching_periods_do_not_overlap
           (mockMovement "test1" 1400 1500) (mockMovement "test2" 1500 1600) 1500);
    reflexivity.
Defined.

(** A bar is never lower than the minimum height. *)
Theorem getMovementHeight_at_least_minimum (mv : Movement)
    (config : TimelineConfig) :
  (MOVEMENT_HEIGHT config <= getMovementHeight mv config)%Q.
Proof.
  unfold getMovementHeight. cbv zeta.
  destruct (Qle_bool (MOVEMENT_HEIGHT config) _) eqn:E.
  - by apply Qle_bool_iff.
  - apply Qle_refl.
Qed.

(** ** Scrolling, markers and zoom *)

(** With a positive scale, a later year is never placed above an earlier
    one: the offset of a year, as the program computes it in binary64, is
    monotone in the year, also where it rounds or overflows. *)
Theorem yearToScrollOffset64_monotone (y1 y2 : number)
    (timeRange : TimePeriod) (config : TimelineConfig) :
  (0 < PIXELS_PER_YEAR config)%Q →
  js_le y1 y2 = true →
  js_le (yearToScrollOffset64 y1 timeRange config)
        (yearToScrollOffset64 y2 timeRange config) = true.
Proof.
  intros Hp Hy. unfold yearToScrollOffset64, year. cbv zeta.
  apply add64_mono_r, mul64_mono_l; [done|]. by apply sub64_mono_l.
Qed.

Lemma yearToScrollOffset64_monotone_witness :
  js_le (yearToScrollOffset64 (year 1450) mockTimeRange TIMELINE_CONFIG)
        (yearToScrollOffset64 (year 1500) mockTimeRange TIMELINE_CONFIG)
  = true.
Proof.
  apply (yearToScrollOffset64_monotone (year 1450) (year 1500)
           mockTimeRange TIMELINE_CONFIG); reflexivity.
Defined.

Example yearToScrollOffset64_of_1450_and_1500 :
  yearToScrollOffset64 (year 1450) mockTimeRange TIMELINE_CONFIG = Num 200
  ∧ yearToScrollOffset64 (year 1500) mockTimeRange TIMELINE_CONFIG = Num 300.
Proof. split; by vm_compute. Qed.

(** With a positive scale, scrolling down never moves the start or the end
    of the visible range back.  This is about the binary64 arithmetic of the
    program: every operation between the offset and the range is monotone,
    also where it rounds or overflows to an infinity. *)
Theorem visible_range_monotone (screenHeight : Q) (timeRange : TimePeriod)
    (config : TimelineConfig) (offset1 offset2 : Q) :
  (0 < PIXELS_PER_YEAR config)%Q → (offset1 <= offset2)%Q →
  js_le (range_start (updateVisibleRange64 screenHeight timeRange config offset1))
        (range_start (updateVisibleRange64 screenHeight timeRange config offset2))
  = true
  ∧ js_le (range_end (updateVisibleRange64 screenHeight timeRange config offset1))
          (range_end (updateVisibleRange64 screenHeight timeRange config offset2))
    = true.
Proof.
  intros Hp Ho. unfold updateVisibleRange64. cbv zeta.
  cbn [range_start range_end]. unfold year. split.
  - apply Math_max_mono, scrollOffsetToYear64_mono; [done|].
    by apply js_le_Num.
  - apply Math_min_mono, scrollOffsetToYear64_mono; [done|].
    rewrite sub64_Num.
    destruct (round64_cases (screenHeight + - (200))%Q) as [[v ->]|[->| ->]];
      [|done|done].
    rewrite !add64_Num. apply round64_mono. lra.
Qed.

Lemma visible_range_monotone_witness :
  js_le (range_start (updateVisibleRange64 667 mockTimeRange TIMELINE_CONFIG 200))
        (range_start (updateVisibleRange64 667 mockTimeRange TIMELINE_CONFIG 300))
  = true
  ∧ js_le (range_end (updateVisibleRange64 667 mockTimeRange TIMELINE_CONFIG 200))
          (range_end (updateVisibleRange64 667 mockTimeRange TIMELINE_CONFIG 300))
    = true.
Proof.
  apply (visible_range_monotone 667 mockTimeRange TIMELINE_CONFIG 200 300);
    by vm_compute.
Defined.

(** The two ranges of that case, and a range whose start is infinite: with
    [2^-1000] pixels per year the division overflows. *)
Example visible_ranges_at_200_and_300 :
  updateVisibleRange64 667 mockTimeRange TIMELINE_CONFIG 200
  = mkRange (year 1450) (year 1684)
  ∧ updateVisibleRange64 667 mockTimeRange TIMELINE_CONFIG 300
    = mkRange (year 1500) (year 1734)
  ∧ updateVisibleRange64 667 mockTimeRange
      (mkConfig (pow2 (-1000)) 100 60 10) 10000000000
    = mkRange PosInfinity (year 1920).
Proof. repeat split; by vm_compute. Qed.

Lemma floorHalfCentury_spec (y : Z) :
  (50 | floorHalfCentury y) ∧ floorHalfCentury y ≤ y < floorHalfCentury y + 50.
Proof.
  unfold floorHalfCentury. split; [by exists (y / 50)|].
  pose proof (Z.div_mod y 50). pose proof (Z.mod_pos_bound y 50). lia.
Qed.

Lemma ceilHalfCentury_spec (y : Z) :
  (50 | ceilHalfCentury y) ∧ ceilHalfCentury y - 50 < y ≤ ceilHalfCentury y.
Proof.
  unfold ceilHalfCentury. split; [by exists (- (- y / 50))|].
  pose proof (Z.div_mod (- y) 50). pose proof (Z.mod_pos_bound (- y) 50). lia.
Qed.

Lemma markerLoop_total (timeRange : TimePeriod) (config : TimelineConfig)
    (E : Z) :
  ∀ (fuel : nat) (y : Z),
    (0 < fuel)%nat → E - y + 50 < 50 * Z.of_nat fuel →
    is_Some (markerLoop fuel timeRange config E y).
Proof.
  induction fuel as [|fuel IH]; intros y Hpos Hfuel; [lia|].
  cbn [markerLoop]. destruct (y <=? E) eqn:Hy; [|by eexists].
  apply Z.leb_le in Hy.
  destruct (IH (y + 50)) as [rest ->]; [lia|lia|]. by eexists.
Qed.

Lemma markerLoop_fuel (timeRange : TimePeriod) (config : TimelineConfig)
    (E : Z) :
  ∀ (fuel1 fuel2 : nat) (y : Z) (l1 l2 : list marker),
    markerLoop fuel1 timeRange config E y = Some l1 →
    markerLoop fuel2 timeRange config E y = Some l2 →
    l1 = l2.
Proof.
  induction fuel1 as [|fuel1 IH]; intros [|fuel2] y l1 l2; try done.
  cbn [markerLoop]. destruct (y <=? E); [|congruence].
  destruct (markerLoop fuel1 _ _ _ _) as [r1|] eqn:E1; [|done].
  destruct (markerLoop fuel2 _ _ _ _) as [r2|] eqn:E2; [|done].
  rewrite (IH _ _ _ _ E1 E2). simpl. congruence.
Qed.

Lemma markerLoop_spec (timeRange : TimePeriod) (config : TimelineConfig)
    (E : Z) :
  ∀ (fuel : nat) (y : Z) (l : list marker),
    markerLoop fuel timeRange config E y = Some l →
    (∀ m, m ∈ l →
       y ≤ marker_year m ∧ (50 | marker_year m - y)
       ∧ start timeRange ≤ marker_year m ≤ end_or_start timeRange
       ∧ marker_top m = yearToScrollOffset (marker_year m) timeRange config)
    ∧ (∀ z, y ≤ z ≤ E → (50 | z - y) →
         start timeRange ≤ z ≤ end_or_start timeRange →
         z ∈ marker_year <$> l)
    ∧ StronglySorted (λ a b, marker_year a < marker_year b) l.
Proof.
  induction fuel as [|fuel IH]; intros y l; [done|].
  cbn [markerLoop]. destruct (y <=? E) eqn:Hy.
  - apply Z.leb_le in Hy.
    destruct (markerLoop fuel _ _ _ _) as [rest|] eqn:Hrest; [|done].
    destruct (IH _ _ Hrest) as (Hsound & Hcomplete & Hsorted).
    assert (∀ m, m ∈ rest →
              y ≤ marker_year m ∧ (50 | marker_year m - y)
              ∧ start timeRange ≤ marker_year m ≤ end_or_start timeRange
              ∧ marker_top m = yearToScrollOffset (marker_year m) timeRange config)
      as Hsound'.
    { intros m (? & [k Hk] & ? & ?)%Hsound.
      split; [lia|]. split; [exists (k + 1); lia|done]. }
    assert (∀ z, y ≤ z ≤ E → (50 | z - y) → z ≠ y →
              start timeRange ≤ z ≤ end_or_start timeRange →
              z ∈ marker_year <$> rest) as Hcomplete'.
    { intros z Hz [k Hk] Hne Hin. apply Hcomplete; [lia| |done].
      exists (k - 1). lia. }
    simpl. intros [= <-].
    destruct ((start timeRange <=? y) && (y <=? end_or_start timeRange)) eqn:Hin.
    + apply andb_true_iff in Hin as [H1%Z.leb_le H2%Z.leb_le].
      split; [|split].
      * intros m [->|Hm]%elem_of_cons; [|by apply Hsound'].
        simpl. split; [lia|]. split; [exists 0; lia|done].
      * intros z Hz Hdiv Hzin. rewrite fmap_cons. simpl.
        destruct (decide (z = y)) as [->|Hne]; [by left|].
        right. by apply Hcomplete'.
      * constructor; [done|]. apply Forall_forall.
        intros m (? & _)%Hsound. simpl. lia.
    + split; [done|]. split; [|done].
      intros z Hz Hdiv Hzin. apply Hcomplete'; try done.
      intros ->. apply andb_false_iff in Hin as [H%Z.leb_gt | H%Z.leb_gt]; lia.
  - intros [= <-]. apply Z.leb_gt in Hy. split; [by intros m ?%elem_of_nil|].
    split; [|constructor]. intros z Hz. lia.
Qed.

(** On integers of any size, the loop produces exactly the multiples of 50
    between [timeRange.start] and [timeRange.end || timeRange.start], each
    once and in increasing order, within the fuel stated. *)
Lemma generateHalfCenturyMarkers_exact (timeRange : TimePeriod)
    (config : TimelineConfig) :
  ∃ markers : list marker,
    (∀ fuel : nat,
       (0 < fuel)%nat →
       ceilHalfCentury (end_or_start timeRange)
         - floorHalfCentury (start timeRange) + 50 < 50 * Z.of_nat fuel →
       generateHalfCenturyMarkers fuel timeRange config = Some markers)
    ∧ (∀ z, z ∈ marker_year <$> markers
            ↔ start timeRange ≤ z ≤ end_or_start timeRange ∧ (50 | z))
    ∧ (∀ m, m ∈ markers →
         marker_top m = yearToScrollOffset (marker_year m) timeRange config)
    ∧ StronglySorted (λ a b, marker_year a < marker_year b) markers.
Proof.
  set (S := floorHalfCentury (start timeRange)).
  set (E := ceilHalfCentury (end_or_start timeRange)).
  destruct (markerLoop_total timeRange config E
              (Datatypes.S (Z.to_nat (E - S + 50))) S) as [markers Hm];
    [lia|lia|].
  destruct (markerLoop_spec _ _ _ _ _ _ Hm) as (Hsound & Hcomplete & Hsorted).
  destruct (floorHalfCentury_spec (start timeRange)) as [[ks Hks] HS].
  destruct (ceilHalfCentury_spec (end_or_start timeRange)) as [_ HE].
  fold S in Hks, HS. fold E in HE.
  exists markers. split; [|split; [|split; [|done]]].
  - intros fuel Hpos Hfuel. unfold generateHalfCenturyMarkers. cbv zeta.
    fold S E.
    destruct (markerLoop_total timeRange config E fuel S Hpos Hfuel) as [l Hl].
    rewrite Hl. f_equal. by eapply markerLoop_fuel.
  - intros z. split.
    + intros (m & -> & (? & [k Hk] & ? & _)%Hsound)%list_elem_of_fmap.
      split; [done|]. exists (k + ks). lia.
    + intros [Hz [k Hk]]. apply Hcomplete; [lia| |done].
      exists (k - ks). lia.
  - intros m Hin. by apply Hsound.
Qed.

Example markers_between_1425_and_1610 :
  generateHalfCenturyMarkers 20 (mkPeriod 1425 (Some 1610)) TIMELINE_CONFIG
  = Some [mkMarker 1450 150; mkMarker 1500 250; mkMarker 1550 350;
          mkMarker 1600 450].
Proof. reflexivity. Qed.

(** *** The marker loop on doubles *)

Lemma js_le_year (a b : Z) : js_le (year a) (year b) = (a <=? b).
Proof.
  unfold year. cbn [js_le]. apply eq_iff_eq_true.
  by rewrite Qle_bool_iff, Z.leb_le, <- Zle_Qle.
Qed.

Lemma add64_year (a b : Z) :
  Z.abs (a + b) < 2 ^ 53 → add64 (year a) (year b) = year (a + b).
Proof.
  intros H. unfold year. rewrite add64_Num.
  apply round64_integer; [by rewrite inject_Z_plus|done].
Qed.

Lemma mul64_year (a b : Z) :
  Z.abs (a * b) < 2 ^ 53 → mul64 (year a) (year b) = year (a * b).
Proof.
  intros H. unfold year. rewrite mul64_Num.
  apply round64_integer; [by rewrite inject_Z_mult|done].
Qed.

(** Rounding keeps a value between two doubles that enclose it. *)
Lemma round64_between (a q b : Q) :
  round64 a = Num (Qred a) → round64 b = Num (Qred b) →
  (a <= q)%Q → (q <= b)%Q →
  ∃ v, round64 q = Num v ∧ (a <= v)%Q ∧ (v <= b)%Q.
Proof.
  intros Ha Hb Haq Hqb.
  pose proof (round64_mono _ _ Haq) as H1.
  pose proof (round64_mono _ _ Hqb) as H2.
  rewrite Ha in H1. rewrite Hb in H2.
  destruct (round64_cases q) as [[v Hv]|[Hv|Hv]]; rewrite Hv in H1, H2;
    try done.
  exists v. split; [done|].
  apply js_le_Num in H1, H2.
  rewrite (Qred_correct a) in H1. rewrite (Qred_correct b) in H2. done.
Qed.

Lemma round64_year (z : Z) :
  Z.abs z < 2 ^ 53 → round64 (inject_Z z) = Num (Qred (inject_Z z)).
Proof.
  intros Hz. rewrite (round64_integer _ z) by done.
  by rewrite (Qred_inject_Z _ z).
Qed.

(** [x / 50], rounded, lies between the integers next to the exact
    quotient, at least 1/64 away from the one on the other side. *)
Lemma div64_by_50 (x : Z) :
  Z.abs x ≤ 2 ^ 52 →
  ∃ v, div64 (year x) (Num 50) = Num v
       ∧ (inject_Z (x / 50) <= v)%Q
       ∧ (v <= inject_Z (x / 50) + (63 # 64))%Q
       ∧ (inject_Z (- (- x / 50)) - (63 # 64) <= v)%Q
       ∧ (v <= inject_Z (- (- x / 50)))%Q.
Proof.
  intros Hx. unfold year. rewrite div64_positive by done.
  assert (2 ^ 52 = 4503599627370496) as E52 by reflexivity.
  assert (2 ^ 53 = 9007199254740992) as E53 by reflexivity.
  set (k := x / 50). set (k' := - (- x / 50)).
  pose proof (Z.div_mod x 50 ltac:(done)) as Hk.
  pose proof (Z.mod_pos_bound x 50 ltac:(done)) as Hr.
  pose proof (Z.div_mod (- x) 50 ltac:(done)) as Hk'.
  pose proof (Z.mod_pos_bound (- x) 50 ltac:(done)) as Hr'.
  fold k in Hk. assert (- x / 50 = - k') as Ek' by (unfold k'; lia).
  rewrite Ek' in Hk'.
  assert (inject_Z k <= inject_Z x / 50)%Q as Hlo.
  { apply Qle_shift_div_l; [done|]. change 50%Q with (inject_Z 50).
    rewrite <- inject_Z_mult, <- Zle_Qle. lia. }
  assert (inject_Z x / 50 <= inject_Z (64 * k + 63) * pow2 (-6))%Q as Hhi.
  { apply Qle_shift_div_r; [done|]. change (pow2 (-6)) with (1 # 64)%Q.
    assert (inject_Z (64 * k + 63) * (1 # 64) * 50
            == inject_Z (50 * (64 * k + 63)) * (1 # 64))%Q as ->.
    { rewrite (inject_Z_mult 50). change (inject_Z 50) with 50%Q. ring. }
    assert (inject_Z x == inject_Z (64 * x) * (1 # 64))%Q as ->.
    { rewrite inject_Z_mult. change (inject_Z 64) with 64%Q. field. }
    apply Qmult_le_compat_r; [|done]. rewrite <- Zle_Qle. lia. }
  assert (inject_Z (64 * k' - 63) * pow2 (-6) <= inject_Z x / 50)%Q as Hlo'.
  { apply Qle_shift_div_l; [done|]. change (pow2 (-6)) with (1 # 64)%Q.
    assert (inject_Z (64 * k' - 63) * (1 # 64) * 50
            == inject_Z (50 * (64 * k' - 63)) * (1 # 64))%Q as ->.
    { rewrite (inject_Z_mult 50). change (inject_Z 50) with 50%Q. ring. }
    assert (inject_Z x == inject_Z (64 * x) * (1 # 64))%Q as ->.
    { rewrite inject_Z_mult. change (inject_Z 64) with 64%Q. field. }
    apply Qmult_le_compat_r; [|done]. rewrite <- Zle_Qle. lia. }
  assert (inject_Z x / 50 <= inject_Z k')%Q as Hhi'.
  { apply Qle_shift_div_r; [done|]. change 50%Q with (inject_Z 50).
    rewrite <- inject_Z_mult, <- Zle_Qle. lia. }
  destruct (round64_between _ _ _
              (round64_year k ltac:(lia))
              (round64_dyadic _ (64 * k + 63) (-6) ltac:(reflexivity)
                 ltac:(lia) ltac:(lia))
              Hlo Hhi) as (v & Hv & Hv1 & Hv2).
  destruct (round64_between _ _ _
              (round64_dyadic _ (64 * k' - 63) (-6) ltac:(reflexivity)
                 ltac:(lia) ltac:(lia))
              (round64_year k' ltac:(lia))
              Hlo' Hhi') as (v' & Hv' & Hv1' & Hv2').
  assert (v' = v) as -> by congruence.
  exists v. split; [done|]. change (pow2 (-6)) with (1 # 64)%Q in *.
  repeat split; try done.
  - rewrite inject_Z_plus, inject_Z_mult in Hv2.
    change (inject_Z 64) with 64%Q in Hv2. change (inject_Z 63) with 63%Q in Hv2.
    lra.
  - unfold Z.sub in Hv1'. rewrite inject_Z_plus, inject_Z_mult in Hv1'.
    change (inject_Z 64) with 64%Q in Hv1'.
    change (inject_Z (- (63))) with (-63)%Q in Hv1'.
    lra.
Qed.

Lemma startHalfCentury64_exact (x : Z) :
  Z.abs x ≤ 2 ^ 52 →
  mul64 (Math_floor (div64 (year x) (Num 50))) (Num 50)
  = year (floorHalfCentury x).
Proof.
  intros Hx. destruct (div64_by_50 x Hx) as (v & -> & Hlo & Hhi & _).
  cbn [Math_floor]. rewrite (Qfloor_unique v (x / 50)); cycle 1.
  { done. }
  { rewrite inject_Z_plus. change (inject_Z 1) with 1%Q. lra. }
  assert (2 ^ 52 = 4503599627370496) as E52 by reflexivity.
  assert (2 ^ 53 = 9007199254740992) as E53 by reflexivity.
  pose proof (floorHalfCentury_spec x) as [_ Hs]. unfold floorHalfCentury in *.
  apply (mul64_year (x / 50) 50). lia.
Qed.

Lemma endHalfCentury64_exact (x : Z) :
  Z.abs x ≤ 2 ^ 52 →
  mul64 (Math_ceil (div64 (year x) (Num 50))) (Num 50)
  = year (ceilHalfCentury x).
Proof.
  intros Hx. destruct (div64_by_50 x Hx) as (v & -> & _ & _ & Hlo & Hhi).
  cbn [Math_ceil]. unfold Qceiling.
  rewrite (Qfloor_unique (- v) (- x / 50)); cycle 1.
  { rewrite inject_Z_opp in Hhi. lra. }
  { rewrite inject_Z_plus. change (inject_Z 1) with 1%Q.
    rewrite inject_Z_opp in Hlo. lra. }
  assert (2 ^ 52 = 4503599627370496) as E52 by reflexivity.
  assert (2 ^ 53 = 9007199254740992) as E53 by reflexivity.
  pose proof (ceilHalfCentury_spec x) as [_ Hs]. unfold ceilHalfCentury in *.
  apply (mul64_year (- (- x / 50)) 50). lia.
Qed.

(** As long as the years stay below 2^53, the loop on doubles runs as the
    loop on integers does. *)
Lemma markerLoop64_markerLoop (timeRange : TimePeriod)
    (config : TimelineConfig) (E : Z) :
  E + 50 < 2 ^ 53 →
  ∀ (fuel : nat) (y : Z),
    - 2 ^ 53 < y →
    markerLoop64 fuel timeRange config (year E) (year y)
    = (λ l : list marker, markerOf timeRange config ∘ marker_year <$> l)
      <$> markerLoop fuel timeRange config E y.
Proof.
  intros HE. induction fuel as [|fuel IH]; intros y Hy; [done|].
  cbn [markerLoop64 markerLoop]. rewrite !js_le_year.
  destruct (y <=? E) eqn:HyE; [|done]. apply Z.leb_le in HyE.
  change (Num 50) with (year 50). rewrite add64_year by lia.
  rewrite IH by lia.
  destruct (markerLoop fuel timeRange config E (y + 50)) as [rest|]; [|done].
  simpl. by destruct ((start timeRange <=? y) && (y <=? end_or_start timeRange)).
Qed.

(** When [timeRange.start] and [timeRange.end || timeRange.start] are at
    most 2^52 in absolute value, the half-century markers are exactly the
    multiples of 50 between them, each once and in increasing order, each
    at the offset of its year; the loop ends within the fuel stated. *)
Theorem generateHalfCenturyMarkers64_exact (timeRange : TimePeriod)
    (config : TimelineConfig) :
  Z.abs (start timeRange) ≤ 2 ^ 52 →
  Z.abs (end_or_start timeRange) ≤ 2 ^ 52 →
  ∃ years : list Z,
    (∀ fuel : nat,
       (0 < fuel)%nat →
       ceilHalfCentury (end_or_start timeRange)
         - floorHalfCentury (start timeRange) + 50 < 50 * Z.of_nat fuel →
       generateHalfCenturyMarkers64 fuel timeRange config
       = Some (markerOf timeRange config <$> years))
    ∧ (∀ z, z ∈ years
            ↔ start timeRange ≤ z ≤ end_or_start timeRange ∧ (50 | z))
    ∧ StronglySorted Z.lt years.
Proof.
  intros Hs He.
  destruct (generateHalfCenturyMarkers_exact timeRange config)
    as (markers & Hrun & Hyears & _ & Hsorted).
  assert (2 ^ 52 = 4503599627370496) as E52 by reflexivity.
  assert (2 ^ 53 = 9007199254740992) as E53 by reflexivity.
  pose proof (floorHalfCentury_spec (start timeRange)) as [_ HS].
  pose proof (ceilHalfCentury_spec (end_or_start timeRange)) as [_ HE].
  exists (marker_year <$> markers). split; [|split; [done|]].
  - intros fuel Hpos Hfuel. unfold generateHalfCenturyMarkers64. cbv zeta.
    rewrite startHalfCentury64_exact, endHalfCentury64_exact by done.
    rewrite markerLoop64_markerLoop by lia.
    specialize (Hrun fuel Hpos Hfuel). unfold generateHalfCenturyMarkers in Hrun.
    cbv zeta in Hrun. rewrite Hrun. simpl. by rewrite list_fmap_compose.
  - by apply (StronglySorted_fmap marker_year
                 (λ a b, marker_year a < marker_year b) Z.lt).
Qed.

Lemma generateHalfCenturyMarkers64_exact_witness :
  ∃ years : list Z,
    (∀ fuel : nat,
       (0 < fuel)%nat →
       ceilHalfCentury (end_or_start (mkPeriod 1425 (Some 1610)))
         - floorHalfCentury (start (mkPeriod 1425 (Some 1610))) + 50
       < 50 * Z.of_nat fuel →
       generateHalfCenturyMarkers64 fuel (mkPeriod 1425 (Some 1610))
         TIMELINE_CONFIG
       = Some (markerOf (mkPeriod 1425 (Some 1610)) TIMELINE_CONFIG <$> years))
    ∧ (∀ z, z ∈ years
            ↔ start (mkPeriod 1425 (Some 1610)) ≤ z
                ≤ end_or_start (mkPeriod 1425 (Some 1610))
              ∧ (50 | z))
    ∧ StronglySorted Z.lt years.
Proof.
  apply (generateHalfCenturyMarkers64_exact (mkPeriod 1425 (Some 1610))
           TIMELINE_CONFIG); by vm_compute.
Defined.

Example markers64_between_1425_and_1610 :
  generateHalfCenturyMarkers64 20 (mkPeriod 1425 (Some 1610)) TIMELINE_CONFIG
  = Some [mkMarker64 (year 1450) (Num 150); mkMarker64 (year 1500) (Num 250);
          mkMarker64 (year 1550) (Num 350); mkMarker64 (year 1600) (Num 450)].
Proof. by vm_compute. Qed.

Lemma handleZoomIn_range (z : Q) :
  (1 # 2 <= z)%Q → (z <= 3)%Q →
  (1 # 2 <= handleZoomIn z)%Q ∧ (handleZoomIn z <= 3)%Q.
Proof.
  intros Hlo Hhi. unfold handleZoomIn. split.
  - apply Q.min_glb; lra.
  - apply Q.le_min_r.
Qed.

Lemma handleZoomOut_range (z : Q) :
  (1 # 2 <= z)%Q → (z <= 3)%Q →
  (1 # 2 <= handleZoomOut z)%Q ∧ (handleZoomOut z <= 3)%Q.
Proof.
  intros Hlo Hhi. unfold handleZoomOut. split.
  - apply Q.le_max_r.
  - apply Q.max_lub; [|lra].
    assert (z / (3 # 2) == z * (2 # 3))%Q as -> by (by field). lra.
Qed.

Lemma zoom_presses_range (presses : list zoomPress) :
  ∀ z : Q,
    (1 # 2 <= z)%Q → (z <= 3)%Q →
    (1 # 2 <= foldl zoomAfterPress z presses)%Q
    ∧ (foldl zoomAfterPress z presses <= 3)%Q.
Proof.
  induction presses as [|p presses IH]; intros z Hlo Hhi; [done|].
  simpl. destruct p; simpl.
  - destruct (handleZoomIn_range z Hlo Hhi). by apply IH.
  - destruct (handleZoomOut_range z Hlo Hhi). by apply IH.
Qed.


(** Zooming in and then out gives back the zoom level, up to 2; zooming out
    and then in gives it back from 0.75 on (in exact arithmetic). *)
Theorem zoom_in_out_round_trip (z : Q) :
  ((1 # 2 <= z)%Q → (z <= 2)%Q → (handleZoomOut (handleZoomIn z) == z)%Q)
  ∧ ((3 # 4 <= z)%Q → (z <= 3)%Q → (handleZoomIn (handleZoomOut z) == z)%Q).
Proof.
  unfold handleZoomIn, handleZoomOut. split; intros Hlo Hhi.
  - rewrite (Q.min_l (z * (3 # 2)) 3) by lra.
    assert (z * (3 # 2) / (3 # 2) == z)%Q as Hd by (by field).
    rewrite Q.max_l; rewrite Hd; [done|lra].
  - assert (z / (3 # 2) == z * (2 # 3))%Q as Hd by (by field).
    rewrite (Q.max_l (z / (3 # 2)) (1 # 2)) by (rewrite Hd; lra).
    rewrite Q.min_l; rewrite Hd; [ring|lra].
Qed.

(** A pinch reports a zoom level between 0.5 and 3, the product of the
    baseline and the scale when that lies in between; without the callback
    it reports nothing. *)
Theorem pinch_zoom_clamped (baseZoomLevel scale : Q) :
  (∃ z : Q,
     handlePinchGestureEvent true baseZoomLevel scale = Some z
     ∧ (1 # 2 <= z)%Q ∧ (z <= 3)%Q
     ∧ ((1 # 2 <= baseZoomLevel * scale)%Q → (baseZoomLevel * scale <= 3)%Q →
        (z == baseZoomLevel * scale)%Q))
  ∧ handlePinchGestureEvent false baseZoomLevel scale = None.
Proof.
  split; [|done]. eexists. split; [reflexivity|]. split; [apply Q.le_max_l|].
  split.
  - apply Q.max_lub; [lra|apply Q.le_min_l].
  - intros Hlo Hhi. rewrite (Q.min_r 3 (baseZoomLevel * scale)) by done.
    by rewrite Q.max_r.
Qed.

(** ** What the screens show *)

Lemma append_empty (s : string) : s +:+ "" = s.
Proof.
  induction s as [|a s IH]; [done|].
  change (String a s +:+ "") with (String a (s +:+ "")). by f_equal.
Qed.

Lemma append_cancel (s t : string) : s +:+ t = s → t = ""%string.
Proof.
  induction s as [|a s IH]; [done|].
  change (String a s +:+ t) with (String a (s +:+ t)).
  intros [= H]. by apply IH.
Qed.

(** The header subtitle of the timeline screen, the time indicator and the
    bar label show the same text for every period. *)
Theorem headerSubtitle_agrees (p : TimePeriod) :
  headerSubtitle p = formatRange p ∧ formatRange p = formatYearRange p.
Proof.
  split; [|done]. unfold headerSubtitle, formatRange.
  destruct (falsy (end_ p)); simpl; [by rewrite append_empty|].
  destruct (bool_decide (end_ p = Some (start p))); simpl;
    [by rewrite append_empty|done].
Qed.

(** The period line of the modal and of the detail screen agrees with the
    bar label exactly when the end is absent, or present, not 0 and
    different from the start: an end equal to the start is repeated after a
    dash, and an end of 0 is shown as a digit after the start. *)
Theorem periodLine_agrees_iff (p : TimePeriod) :
  periodLine p = formatYearRange p
  ↔ end_ p = None ∨ ∃ e, end_ p = Some e ∧ e ≠ 0 ∧ e ≠ start p.
Proof.
  unfold periodLine, formatYearRange. destruct p as [s [e|]]; simpl.
  - destruct (e =? 0) eqn:E0; simpl.
    + apply Z.eqb_eq in E0. subst e. split.
      * by intros H%append_cancel.
      * intros [? | (e & [= <-] & ? & _)]; done.
    + apply Z.eqb_neq in E0. case_bool_decide as Hes; simpl.
      * split; [by intros H%append_cancel|].
        intros [? | (e' & [= <-] & _ & Hne)]; [done|]. congruence.
      * split; [|done]. intros _. right. exists e.
        split; [done|]. split; [done|]. congruence.
  - rewrite append_empty. split; [by left|done].
Qed.

Example periodLine_repeats_equal_end :
  periodLine (mkPeriod 1900 (Some 1900)) = "1900 - 1900"%string
  ∧ formatYearRange (mkPeriod 1900 (Some 1900)) = "1900"%string.
Proof. split; reflexivity. Qed.

(** The detail screen shows "Movement not found" exactly when no movement
    of the data has the id.  Otherwise it shows the first movement with
    that id; for the id of a movement of the data it shows a movement with
    that id, the movement itself when the ids of the data are distinct. *)
Theorem MovementDetailScreen_lookup (data : list Movement) (movementId : string) :
  (MovementDetailScreen data movementId = MovementNotFound
   ↔ ∀ m, m ∈ data → id m ≠ movementId)
  ∧ (∀ m, MovementDetailScreen data movementId = MovementDetails m →
       ∃ i, data !! i = Some m ∧ id m = movementId
            ∧ ∀ j m', data !! j = Some m' → (j < i)%nat → id m' ≠ movementId)
  ∧ (∀ m, m ∈ data →
       ∃ m', MovementDetailScreen data (id m) = MovementDetails m'
             ∧ id m' = id m
             ∧ (NoDup (id <$> data) → m' = m)).
Proof.
  unfold MovementDetailScreen, findMovement. split; [|split].
  - destruct (list_find _ data) as [[i m]|] eqn:E; simpl.
    + split; [done|]. intros H.
      apply list_find_Some in E as (Hi & Hm & _).
      destruct (H m); [|done]. apply list_elem_of_lookup. eauto.
    + split; [|done]. intros _ m Hin.
      apply list_find_None in E. rewrite Forall_forall in E. by apply E.
  - intros m. destruct (list_find _ data) as [[i m']|] eqn:E; simpl; [|done].
    intros [= <-]. apply list_find_Some in E as (Hi & Hm & Hfirst).
    exists i. split; [done|]. split; [done|].
    intros j m'' Hj Hlt. by apply (Hfirst j m'').
  - intros m Hin.
    destruct (list_find (λ m0, id m0 = id m) data) as [[i m']|] eqn:E; simpl.
    + apply list_find_Some in E as (Hi & Hm & _).
      exists m'. split; [done|]. split; [done|]. intros Hnd.
      apply list_elem_of_lookup in Hin as [j Hj].
      assert (i = j) as ->; [|congruence].
      apply (NoDup_lookup _ _ _ (id m) Hnd); rewrite list_lookup_fmap.
      * by rewrite Hi, <- Hm.
      * by rewrite Hj.
    + apply list_find_None in E. rewrite Forall_forall in E.
      by destruct (E m Hin).
Qed.

(** ** More on the column assignment *)

Section Centre.
Variable heap : loc → Movement.

Lemma Chosen_centre (mv : loc) (cols : gmap Z (list entry)) (c : Z) :
  free heap mv cols 0 → Chosen heap mv cols c → c = 0.
Proof.
  intros H0 Hc. apply (Chosen_unique heap mv cols); [done|]. by left.
Qed.

(** When no movement conflicts with those sorted before it, every one is
    placed in the centre. *)
Lemma arrange_all_centre (movements : list loc) :
  (∀ d mv r m,
     sort heap movements = d ++ mv :: r → m ∈ d →
     movementsOverlap (heap mv) (heap m) = false) →
  arrangeMovementsInColumns heap movements
  = Some (replicate (length movements) 0).
Proof.
  intros Hfree.
  destruct (arrange_total heap movements) as (st & Hst & _).
  unfold arrangeMovementsInColumns, arrangeMovementsInColumns_fuel.
  rewrite Hst. simpl. f_equal.
  pose (I := λ (d : list loc) (s : state),
          columnAssignments s = replicate (length movements) 0
          ∧ ∀ c e, e ∈ column c (columns s) → movement e ∈ d).
  assert (I (sort heap movements) st) as [Hres _]; [|done].
  apply (forEach_invariant heap I (length movements) movements
           (sort heap movements) [] (initial movements) st); [| |done].
  - split; [done|]. intros c e. cbn. unfold column.
    rewrite lookup_empty. by intros ?%elem_of_nil.
  - intros d s mv c r Heq [Hasg Hin] Hc. simpl in Heq.
    assert (c = 0) as ->.
    { apply (Chosen_centre mv (columns s)); [|done].
      apply some_overlap_false. intros e He.
      apply (Hfree d mv r); [done|]. by eapply Hin. }
    split.
    + cbn [placed columnAssignments]. rewrite Hasg.
      destruct (indexOf movements mv); simpl; [apply insert_replicate|done].
    + intros c e [He | [_ ->]]%(elem_of_column_placed heap); apply elem_of_app.
      * left. by eapply Hin.
      * right. by apply list_elem_of_singleton.
Qed.

(** The first movement of the sorted list: the one that starts strictly
    before everything listed before it and no later than everything listed
    after it. *)
Lemma sort_head (movements : list loc) :
  ∀ (i : nat) (h : loc),
    movements !! i = Some h →
    (∀ j m, (j < i)%nat → movements !! j = Some m → startOf heap h < startOf heap m) →
    (∀ j m, (i < j)%nat → movements !! j = Some m → startOf heap h ≤ startOf heap m) →
    ∃ t, sort heap movements = h :: t.
Proof.
  induction movements as [|a l IH]; intros i h Hi Hbefore Hafter; [done|].
  simpl. destruct i as [|i]; simpl in Hi.
  - injection Hi as ->. destruct (sort heap l) as [|b t] eqn:E; simpl; [by eexists|].
    assert (b ∈ l) as [j Hj]%list_elem_of_lookup.
    { rewrite <- (sort_Permutation heap l), E. by left. }
    pose proof (Hafter (S j) b ltac:(lia) Hj) as Hle.
    destruct (startOf heap h - startOf heap b <=? 0) eqn:Hcmp; [by eexists|].
    apply Z.leb_gt in Hcmp. lia.
  - destruct (IH i h Hi) as [t Ht].
    { intros j m Hj Hm. apply (Hbefore (S j) m); [lia|done]. }
    { intros j m Hj Hm. apply (Hafter (S j) m); [lia|done]. }
    rewrite Ht. simpl.
    pose proof (Hbefore 0%nat a ltac:(lia) eq_refl) as Hlt.
    destruct (startOf heap a - startOf heap h <=? 0) eqn:Hcmp; [|by eexists].
    apply Z.leb_le in Hcmp. lia.
Qed.

Lemma once_not_in_tail (movements t : list loc) (i : nat) (h : loc) :
  movements !! i = Some h →
  (∀ j, movements !! j = Some h → j = i) →
  h :: t ≡ₚ movements → h ∉ t.
Proof.
  intros Hi Honce Hperm Hin.
  rewrite <- (take_drop_middle movements i h Hi) in Hperm.
  rewrite <- Permutation_middle in Hperm.
  apply Permutation_cons_inv in Hperm. rewrite Hperm in Hin.
  apply elem_of_app in Hin as [Hin | Hin].
  - apply elem_of_take in Hin as (j & Hj & Hlt).
    specialize (Honce j Hj). lia.
  - apply list_elem_of_lookup in Hin as [j Hj]. rewrite lookup_drop in Hj.
    specialize (Honce _ Hj). lia.
Qed.
End Centre.

(** Movements that are distinct objects and never overlap one another are
    all placed in the centre column. *)
Theorem non_overlapping_all_centre (heap : loc → Movement)
    (movements : list loc) :
  NoDup movements →
  (∀ a b, a ∈ movements → b ∈ movements → a ≠ b →
     movementsOverlap (heap a) (heap b) = false) →
  arrangeMovementsInColumns heap movements
  = Some (replicate (length movements) 0).
Proof.
  intros Hnd Hfree. apply arrange_all_centre.
  intros d mv r m Heq Hm.
  assert (NoDup (d ++ mv :: r)) as Hnd'
    by (by rewrite <- Heq, sort_Permutation).
  assert (∀ x, x ∈ d ++ mv :: r → x ∈ movements) as Hin.
  { intros x. by rewrite <- Heq, sort_Permutation. }
  apply Hfree.
  - apply Hin, elem_of_app. right. by left.
  - apply Hin, elem_of_app. by left.
  - intros ->. apply NoDup_app in Hnd' as (_ & Hd & _).
    apply (Hd m Hm). by left.
Qed.

Lemma non_overlapping_all_centre_witness :
  arrangeMovementsInColumns
    (storeOf [mockMovement "test1" 1400 1500; mockMovement "test2" 1600 1700])
    [1; 0]%nat
  = Some (replicate (length [1; 0]%nat) 0).
Proof.
  apply (non_overlapping_all_centre
           (storeOf [mockMovement "test1" 1400 1500; mockMovement "test2" 1600 1700])
           [1; 0]%nat).
  - refine (bool_decide_unpack _ _). vm_compute. exact I.
  - intros a b Ha Hb Hne.
    repeat (apply elem_of_cons in Ha as [-> | Ha]);
      try (by apply elem_of_nil in Ha);
      repeat (apply elem_of_cons in Hb as [-> | Hb]);
      try (by apply elem_of_nil in Hb); try done; reflexivity.
Defined.

(** Movements without duration (no end, or an end equal to the start) never
    conflict, even in the same year and even when listed twice: all of them
    are placed in the centre column. *)
Theorem single_year_all_centre (heap : loc → Movement)
    (movements : list loc) :
  (∀ m, m ∈ movements →
     default (start (period (heap m))) (end_ (period (heap m)))
     = start (period (heap m))) →
  arrangeMovementsInColumns heap movements
  = Some (replicate (length movements) 0).
Proof.
  intros Hpoint. apply arrange_all_centre.
  intros d mv r m Heq Hm.
  assert (∀ x, x ∈ d ++ mv :: r → x ∈ movements) as Hin.
  { intros x. by rewrite <- Heq, sort_Permutation. }
  unfold movementsOverlap. cbv zeta.
  rewrite !Hpoint.
  - apply negb_false_iff, orb_true_iff.
    destruct (Z.le_ge_cases (start (period (heap mv))) (start (period (heap m))));
      [left|right]; by apply Z.leb_le.
  - apply Hin, elem_of_app. by left.
  - apply Hin, elem_of_app. right. by left.
Qed.

Lemma single_year_all_centre_witness :
  arrangeMovementsInColumns
    (storeOf [mockMovement "test1" 1900 1900; mockMovement "test2" 1900 1900])
    [0; 1; 1]%nat
  = Some (replicate (length [0; 1; 1]%nat) 0).
Proof.
  apply (single_year_all_centre
           (storeOf [mockMovement "test1" 1900 1900; mockMovement "test2" 1900 1900])
           [0; 1; 1]%nat).
  intros m Hm.
  repeat (apply elem_of_cons in Hm as [-> | Hm]);
    try (by apply elem_of_nil in Hm); reflexivity.
Defined.

(** Every column index of the output lies within half the number of
    movements of the centre, the left side reaching one further for an even
    number: [-n <= 2c < n] for an input of [n] movements. *)
Theorem columns_within_half_length (heap : loc → Movement)
    (movements : list loc) :
  ∃ assignments,
    arrangeMovementsInColumns heap movements = Some assignments
    ∧ ∀ c, c ∈ assignments →
        - Z.of_nat (length movements) ≤ 2 * c < Z.of_nat (length movements).
Proof.
  destruct (arrange_total heap movements) as (st & Hst & _).
  exists (columnAssignments st).
  unfold arrangeMovementsInColumns, arrangeMovementsInColumns_fuel.
  rewrite Hst. split; [done|].
  set (n := length movements) in *.
  pose (I := λ (d : list loc) (s : state),
          occupants (columns s) = length d
          ∧ Forall (λ c, - Z.of_nat n ≤ 2 * c < Z.of_nat n) (columnAssignments s)).
  assert (I (sort heap movements) st) as [_ Hres].
  { apply (forEach_invariant heap I n movements
             (sort heap movements) [] (initial movements) st); [| |done].
    - split; [done|]. cbn [initial columnAssignments]. fold n.
      apply Forall_forall. intros c [-> Hn]%elem_of_replicate. lia.
    - intros d s mv c r Heq [Hocc Hall] Hc. simpl in Heq.
      assert (length d < n)%nat as Hd.
      { unfold n. rewrite <- (length_sort heap movements), Heq.
        rewrite length_app. simpl. lia. }
      split.
      + cbn [placed columns]. rewrite occupants_push, Hocc, length_app.
        simpl. lia.
      + cbn [placed columnAssignments].
        destruct (indexOf movements mv); simpl; [|done].
        apply Forall_insert; [done|].
        destruct Hc as [[_ ->] | (H0 & k & -> & _ & Hlt)]; [lia|].
        pose proof (failed_probes_bound heap mv (columns s) k H0 Hlt).
        pose proof (overlapping_le_occupants heap mv (columns s)).
        destruct (parity_cases k) as [m [-> | ->]];
          rewrite ?probeColumn_left, ?probeColumn_right; lia. }
  intros c Hc. rewrite Forall_forall in Hres. by apply Hres.
Qed.

(** A movement listed once that starts strictly before every movement
    listed before it and no later than every movement listed after it is
    placed in the centre column. *)
Theorem earliest_movement_in_centre (heap : loc → Movement)
    (movements : list loc) (i : nat) (h : loc) :
  movements !! i = Some h →
  (∀ j, movements !! j = Some h → j = i) →
  (∀ j m, (j < i)%nat → movements !! j = Some m →
     startOf heap h < startOf heap m) →
  (∀ j m, (i < j)%nat → movements !! j = Some m →
     startOf heap h ≤ startOf heap m) →
  ∃ assignments,
    arrangeMovementsInColumns heap movements = Some assignments
    ∧ assignments !! i = Some 0.
Proof.
  intros Hi Honce Hbefore Hafter.
  destruct (arrange_total heap movements) as (st & Hst & _).
  exists (columnAssignments st).
  unfold arrangeMovementsInColumns, arrangeMovementsInColumns_fuel.
  rewrite Hst. split; [done|].
  destruct (sort_head heap movements i h Hi Hbefore Hafter) as [t Ht].
  assert (h ∉ t) as Hnt.
  { apply (once_not_in_tail movements t i h Hi Honce).
    by rewrite <- Ht, sort_Permutation. }
  assert (indexOf movements h = Some i) as Hidx.
  { apply indexOf_first; [done|]. intros j Hlt Hj.
    specialize (Honce j Hj). lia. }
  pose (I := λ (d : list loc) (s : state),
          length (columnAssignments s) = length movements
          ∧ (d = [] → columns s = ∅)
          ∧ (d ≠ [] → columnAssignments s !! i = Some 0)).
  assert (I (sort heap movements) st) as (_ & _ & Hres).
  { apply (forEach_invariant heap I (length movements) movements
             (sort heap movements) [] (initial movements) st); [| |done].
    - split; [apply length_replicate|]. done.
    - intros d s mv c r Heq (Hlen & Hempty & Hcentre) Hc. simpl in Heq.
      rewrite Ht in Heq. split; [|split].
      + cbn [placed columnAssignments]. by rewrite length_assign.
      + by intros [_ ?]%app_eq_nil.
      + intros _. cbn [placed columnAssignments].
        destruct d as [|h' d'].
        * simpl in Heq. injection Heq as <- _.
          assert (c = 0) as ->.
          { apply (Chosen_centre heap h (columns s)); [|done].
            unfold free, column. by rewrite (Hempty eq_refl), lookup_empty. }
          rewrite Hidx. simpl. apply list_lookup_insert_eq.
          rewrite Hlen. by eapply lookup_lt_Some.
        * simpl in Heq. injection Heq as <- Heq.
          assert (mv ≠ h) as Hne.
          { intros ->. apply Hnt. rewrite Heq. apply elem_of_app. right. by left. }
          destruct (indexOf movements mv) as [i'|] eqn:E; simpl;
            [|by apply Hcentre].
          rewrite list_lookup_insert_ne; [by apply Hcentre|].
          intros ->. apply indexOf_Some in E as [E _]. congruence. }
  apply Hres. by rewrite Ht.
Qed.

Lemma earliest_movement_in_centre_witness :
  ∃ assignments,
    arrangeMovementsInColumns threeMovements [2; 0; 1]%nat = Some assignments
    ∧ assignments !! 1%nat = Some 0.
Proof.
  apply (earliest_movement_in_centre threeMovements [2; 0; 1]%nat 1%nat 0%nat).
  - reflexivity.
  - intros [|[|[|j]]]; simpl; intros [=]; reflexivity.
  - intros [|[|[|j]]] m Hlt; simpl; intros [=]; subst; try lia; by vm_compute.
  - intros [|[|[|j]]] m Hlt; simpl; intros [=]; subst; try lia; by vm_compute.
Defined.

(** *** No gaps between the columns in use *)

(** Every column is the centre or a probe. *)
Lemma probeColumn_surj (c : Z) : c ≠ 0 → ∃ k, c = probeColumn k.
Proof.
  intros Hc. destruct (Z.lt_trichotomy c 0) as [Hneg | [-> | Hpos]]; [|done|].
  - exists (2 * Z.to_nat (- c - 1))%nat. rewrite probeColumn_left. lia.
  - exists (2 * Z.to_nat (c - 1) + 1)%nat. rewrite probeColumn_right. lia.
Qed.

Lemma tried_before_probe (c' : Z) (k : nat) :
  tried_before c' (probeColumn k) →
  c' = 0 ∨ ∃ j, (j < k)%nat ∧ c' = probeColumn j.
Proof.
  intros Hb. destruct (decide (c' = 0)) as [|Hne]; [by left|]. right.
  destruct (probeColumn_surj c' Hne) as [j ->]. exists j. split; [|done].
  unfold tried_before in Hb.
  destruct (parity_cases k) as [m [-> | ->]],
           (parity_cases j) as [m' [-> | ->]];
    rewrite ?probeColumn_left, ?probeColumn_right in Hb; lia.
Qed.

Lemma compact_step (heap : loc → Movement) (st : state) (mv : loc)
    (i : option nat) (c : Z) :
  compact st → Chosen heap mv (columns st) c → compact (placed mv i c st).
Proof.
  intros Hcompact Hc.
  assert (∀ x, column x (columns st) ≠ [] →
               column x (columns (placed mv i c st)) ≠ []) as Hkeep.
  { intros x Hx. cbn [placed columns]. rewrite column_push.
    case_decide; [|done]. by destruct (column c (columns st)). }
  intros x x' Hx Hbefore.
  cbn [placed columns] in Hx. rewrite column_push in Hx.
  case_decide as Hxc; [subst x|by apply Hkeep, (Hcompact x)].
  clear Hx. destruct Hc as [[_ ->] | (H0 & k & -> & _ & Hlt)].
  { unfold tried_before in Hbefore. lia. }
  apply Hkeep.
  assert (∀ y, ¬ free heap mv (columns st) y → column y (columns st) ≠ [])
    as Hconf.
  { intros y Hy Hnil. apply Hy. unfold free. by rewrite Hnil. }
  destruct (tried_before_probe x' k Hbefore) as [-> | (j & Hj & ->)].
  - by apply Hconf.
  - by apply Hconf, Hlt.
Qed.

Lemma arrange_compact (heap : loc → Movement) (fuel : nat)
    (movements : list loc) (st : state) :
  arrange heap fuel movements = Some st → compact st.
Proof.
  unfold arrange. intros Hrun.
  apply (forEach_invariant heap (λ _, compact) fuel movements
           (sort heap movements) [] (initial movements) st); [| |done].
  - intros c c' Hc. cbn in Hc. unfold column in Hc.
    by rewrite lookup_empty in Hc.
  - intros d s mv c r _ Hs Hc. by eapply compact_step.
Qed.

(** For distinct objects the output leaves no gap: when a movement is in
    column [c], every column nearer to the centre, and the left column at
    the same distance when [c] is on the right, holds a movement too. *)
Theorem columns_without_gaps (heap : loc → Movement) (movements : list loc) :
  NoDup movements →
  ∃ assignments,
    arrangeMovementsInColumns heap movements = Some assignments
    ∧ ∀ i c c',
        assignments !! i = Some c → tried_before c' c →
        ∃ i', assignments !! i' = Some c'.
Proof.
  intros Hnd.
  destruct (arrange_total heap movements) as (st & Hst & _).
  exists (columnAssignments st).
  unfold arrangeMovementsInColumns, arrangeMovementsInColumns_fuel.
  rewrite Hst. split; [done|].
  pose proof (arrange_separated heap _ _ _ Hnd Hst) as Hsep.
  pose proof (arrange_compact heap _ _ _ Hst) as Hcompact.
  intros i c c' Hi Hbefore.
  assert (is_Some (movements !! i)) as [m Hm].
  { apply lookup_lt_is_Some. rewrite <- (separated_length _ _ _ _ Hsep).
    by eapply lookup_lt_Some. }
  destruct (separated_lookup heap _ _ _ _ Hnd Hsep Hm) as (c0 & e & Hc0 & He & _).
  assert (c0 = c) as -> by congruence.
  assert (column c' (columns st) ≠ []) as Hne.
  { apply (Hcompact c c'); [|done]. intros Hnil. rewrite Hnil in He.
    by apply elem_of_nil in He. }
  destruct (column c' (columns st)) as [|e' col] eqn:Hcol; [done|].
  assert (e' ∈ column c' (columns st)) as He' by (rewrite Hcol; by left).
  pose proof (separated_done _ _ _ _ Hsep c' e' He') as Hin.
  rewrite sort_Permutation in Hin.
  destruct (indexOf_elem movements (movement e') Hin) as [i' Hi'].
  exists i'. by apply (separated_assigned _ _ _ _ Hsep c' e').
Qed.

Lemma columns_without_gaps_witness :
  ∃ assignments,
    arrangeMovementsInColumns threeMovements [0; 1; 2]%nat = Some assignments
    ∧ ∀ i c c',
        assignments !! i = Some c → tried_before c' c →
        ∃ i', assignments !! i' = Some c'.
Proof.
  apply (columns_without_gaps threeMovements [0; 1; 2]%nat).
  refine (bool_decide_unpack _ _). vm_compute. exact I.
Defined.

(** *** The layout reads the periods only *)

Section Frame.
Variables heap1 heap2 : loc → Movement.

Lemma insert_by_start_frame (a : loc) (l : list loc) :
  same_period heap1 heap2 a → (∀ b, b ∈ l → same_period heap1 heap2 b) →
  insert_by_start heap1 a l = insert_by_start heap2 a l.
Proof.
  intros Ha. induction l as [|b l IH]; intros Hl; [done|].
  simpl. unfold startOf. rewrite Ha, (Hl b) by by left.
  destruct (_ <=? 0); [done|]. f_equal. apply IH.
  intros x Hx. apply Hl. by right.
Qed.

Lemma sort_frame (l : list loc) :
  (∀ b, b ∈ l → same_period heap1 heap2 b) → sort heap1 l = sort heap2 l.
Proof.
  induction l as [|a l IH]; intros Hl; [done|].
  simpl. rewrite IH by (intros b Hb; apply Hl; by right).
  apply insert_by_start_frame; [apply Hl; by left|].
  intros b Hb. rewrite sort_Permutation in Hb. apply Hl. by right.
Qed.

Lemma some_overlap_frame (mv : loc) (col : list entry) :
  same_period heap1 heap2 mv → (∀ e, e ∈ col → same_period heap1 heap2 (movement e)) →
  some_overlap heap1 mv col = some_overlap heap2 mv col.
Proof.
  intros Hmv. unfold some_overlap.
  induction col as [|e col IH]; intros Hcol; [done|].
  simpl. rewrite IH by (intros x Hx; apply Hcol; by right).
  unfold movementsOverlap. by rewrite Hmv, (Hcol e) by by left.
Qed.

Lemma probe_frame (mv : loc) (i : option nat) :
  same_period heap1 heap2 mv →
  ∀ (fuel : nat) (columnIndex : Z) (useLeftSide : bool) (st : state),
    same_periods heap1 heap2 st →
    probe heap1 fuel mv i columnIndex useLeftSide st
    = probe heap2 fuel mv i columnIndex useLeftSide st.
Proof.
  intros Hmv. induction fuel as [|fuel IH]; intros ci left st Hst; [done|].
  cbn [probe]. cbv zeta. cbn [columns]. rewrite !column_ensure.
  rewrite (some_overlap_frame mv _ Hmv) by apply Hst.
  assert (same_periods heap1 heap2
            (mkState (ensure (if left then - ci else ci) (columns st))
                     (columnAssignments st))) as Hst1.
  { intros c e. cbn [columns]. rewrite column_ensure. apply Hst. }
  destruct (negb _); [done|]. destruct left; by apply IH.
Qed.

Lemma place_frame (fuel : nat) (movements : list loc) (st : state) (mv : loc) :
  same_period heap1 heap2 mv → same_periods heap1 heap2 st →
  place heap1 fuel movements st mv = place heap2 fuel movements st mv.
Proof.
  intros Hmv Hst. unfold place. cbv zeta. cbn [columns].
  rewrite !column_ensure.
  rewrite (some_overlap_frame mv _ Hmv) by apply Hst.
  destruct (negb _); [done|]. apply probe_frame; [done|].
  intros c e. cbn [columns]. rewrite column_ensure. apply Hst.
Qed.

Lemma forEach_frame (fuel : nat) (movements : list loc) :
  ∀ (rest : list loc) (st : state),
    (∀ m, m ∈ rest → same_period heap1 heap2 m) → same_periods heap1 heap2 st →
    forEach heap1 fuel movements rest st = forEach heap2 fuel movements rest st.
Proof.
  induction rest as [|mv rest IH]; intros st Hrest Hst; [done|].
  cbn [forEach]. rewrite (place_frame fuel movements st mv);
    [|apply Hrest; by left|done].
  destruct (place heap2 fuel movements st mv) as [s1|] eqn:E; [|done].
  simpl. apply IH; [intros m Hm; apply Hrest; by right|].
  apply place_stops in E as (c & _ & ->).
  intros c' e [He | [_ ->]]%(elem_of_column_placed heap2).
  - by eapply Hst.
  - apply Hrest. by left.
Qed.
End Frame.

(** The column assignment depends on the movements through their periods
    only: two stores that give every listed movement the same period give
    the same output, whatever the names, ids and colours. *)
Theorem arrangeMovementsInColumns_reads_periods_only
    (heap1 heap2 : loc → Movement) (movements : list loc) :
  (∀ m, m ∈ movements → period (heap1 m) = period (heap2 m)) →
  arrangeMovementsInColumns heap1 movements
  = arrangeMovementsInColumns heap2 movements.
Proof.
  intros Hsame.
  unfold arrangeMovementsInColumns, arrangeMovementsInColumns_fuel, arrange.
  rewrite (sort_frame heap1 heap2) by done.
  rewrite (forEach_frame heap1 heap2); [done| |].
  - intros m Hm. rewrite sort_Permutation in Hm. by apply Hsame.
  - intros c e. cbn. unfold column. rewrite lookup_empty.
    by intros ?%elem_of_nil.
Qed.

Lemma arrangeMovementsInColumns_reads_periods_only_witness :
  arrangeMovementsInColumns
    (storeOf [mockMovement "test1" 1400 1600; mockMovement "test2" 1500 1700])
    [0; 1]%nat
  = arrangeMovementsInColumns
      (storeOf [mockMovement "a" 1400 1600; mockMovement "b" 1500 1700])
      [0; 1]%nat.
Proof.
  apply (arrangeMovementsInColumns_reads_periods_only
           (storeOf [mockMovement "test1" 1400 1600; mockMovement "test2" 1500 1700])
           (storeOf [mockMovement "a" 1400 1600; mockMovement "b" 1500 1700])
           [0; 1]%nat).
  intros m Hm.
  repeat (apply elem_of_cons in Hm as [-> | Hm]);
    try (by apply elem_of_nil in Hm); reflexivity.
Defined.
